(** * The Historical Court workflow (workflow_agents/agent.py)

    A shallow embedding of the two tool functions, the module-level agent
    tree and the model selection of [agent.py], with the properties of the
    session-state contract, the file export and the workflow graph.  The
    functions of the Python library that the tools call ([posixpath],
    [os.makedirs], [open]) are embedded with them, over a file system of
    directories and regular files.  The engine that runs the agent tree
    belongs to the agent framework; it is modelled after the specification.

    Conventions.
    - A Python [str] is a Rocq [string]: the byte sequence of its UTF-8
      encoding.  A lone surrogate, which UTF-8 proper does not encode, stands
      in the three bytes that the encoding scheme gives it ([ED A0..BF xx]),
      so that a text which cannot be written is a value of the model too.
      Path separators are ASCII, so the [posixpath] functions act on the
      encoded form exactly as they act on the text.
    - A Python call that may raise is a function into [outcome]; a call
      that also mutates an object returns the mutated object next to the
      outcome, so that the object left behind by a raising call is visible.
    - [logging.info] and the Cloud Logging client are not modelled. *)

From Stdlib Require Import Ascii String.
From stdpp Require Import gmap strings list fin_maps.
From Equations Require Import Equations.

Set Warnings "-register-all".

(** ** Python values, exceptions and outcomes *)

(** The values a session state can hold.  The tools of this module only ever
    store lists of strings, but the state is an untyped dictionary, and
    scalar entries are part of its data model. *)
Inductive pyval : Type :=
| PyNone
| PyStr (s : string)
| PyList (items : list pyval).

(** The exceptions that the functions of this module and the library
    functions under them raise.  [OSError errno] stands for an [OSError]
    that has no class of its own, such as [ENAMETOOLONG] and [ENOSPC]. *)
Inductive exception : Type :=
| TypeError
| ValueError
| UnicodeEncodeError
| RecursionError
| FileNotFoundError
| FileExistsError
| NotADirectoryError
| IsADirectoryError
| PermissionError
| OSError (errno : nat).

Inductive outcome (A : Type) : Type :=
| Return (a : A)
| Raise (e : exception).
Arguments Return {A} a.
Arguments Raise {A} e.

(** [x + y] on Python values: only list + list and str + str are defined. *)
Definition py_add (x y : pyval) : outcome pyval :=
  match x, y with
  | PyList a, PyList b => Return (PyList (a ++ b))
  | PyStr a, PyStr b => Return (PyStr (a +:+ b))
  | _, _ => Raise TypeError
  end.

(** ** Session state and [update_session_state] *)

Record ToolContext : Type := mkToolContext {
  state : gmap string pyval
}.

(** [tool_context.state.get(key, default)] *)
Definition state_get (tool_context : ToolContext) (key : string) (dflt : pyval) : pyval :=
  default dflt (state tool_context !! key).

(** [tool_context.state[key] = v] *)
Definition state_set (tool_context : ToolContext) (key : string) (v : pyval) : ToolContext :=
  {| state := <[key := v]> (state tool_context) |}.

(** The dictionary [{"status": "success"}]. *)
Definition status_success : gmap string string := {[ "status" := "success" ]}.

(** agent.py, lines 30-37.  The sum is evaluated before the assignment, so
    a raising sum leaves the state as it was. *)
Definition update_session_state (tool_context : ToolContext) (key value : string)
  : outcome (gmap string string) * ToolContext :=
  let current_data := state_get tool_context key (PyList []) in
  match py_add current_data (PyList [PyStr value]) with
  | Return new_data => (Return status_success, state_set tool_context key new_data)
  | Raise e => (Raise e, tool_context)
  end.

(** The sequence stored at [key], read the way the tool reads it. *)
Definition stored_sequence (tool_context : ToolContext) (key : string) : option (list pyval) :=
  match state_get tool_context key (PyList []) with
  | PyList l => Some l
  | _ => None
  end.

(** A run of tool calls [(key, value)], each on the state its predecessor
    left behind. *)
Fixpoint run_updates (tool_context : ToolContext) (calls : list (string * string)) : ToolContext :=
  match calls with
  | [] => tool_context
  | (k, v) :: rest => run_updates (snd (update_session_state tool_context k v)) rest
  end.

Definition scalar_topic_context : ToolContext :=
  {| state := {[ "SUBJECT_TOPIC" := PyStr "Napoleon" ]} |}.


(** ** [posixpath]: paths as strings

    The string functions of CPython's [posixpath] that [agent.py] calls
    ([join], [dirname]) and that [os.makedirs] calls ([split]). *)

Module posixpath.

Definition is_sep (c : ascii) : bool := Ascii.eqb c "/"%char.

Definition sep : string := "/".

(** [s.startswith("/")] *)
Definition startswith_sep (s : string) : bool :=
  match s with
  | String c _ => is_sep c
  | EmptyString => false
  end.

(** [s.endswith("/")] *)
Fixpoint endswith_sep (s : string) : bool :=
  match s with
  | EmptyString => false
  | String c EmptyString => is_sep c
  | String _ r => endswith_sep r
  end.

(** [bool(s)]: a string is true when it is not empty. *)
Definition nonempty (s : string) : bool :=
  match s with
  | EmptyString => false
  | String _ _ => true
  end.

(** [p.rfind("/") + 1]: the position just after the last separator, [0]
    when there is none. *)
Fixpoint rfind_sep_succ (p : string) : nat :=
  match p with
  | EmptyString => 0
  | String c r =>
      match rfind_sep_succ r with
      | O => if is_sep c then 1 else 0
      | S i => S (S i)
      end
  end.

(** [p[:i]] *)
Fixpoint slice_to (i : nat) (p : string) : string :=
  match i, p with
  | S j, String c r => String c (slice_to j r)
  | _, _ => EmptyString
  end.

(** [p[i:]] *)
Fixpoint slice_from (i : nat) (p : string) : string :=
  match i, p with
  | S j, String _ r => slice_from j r
  | _, _ => p
  end.

(** [s == "/" * len(s)] *)
Fixpoint all_sep (s : string) : bool :=
  match s with
  | EmptyString => true
  | String c r => is_sep c && all_sep r
  end.

(** [s.rstrip("/")] *)
Fixpoint rstrip_sep (s : string) : string :=
  match s with
  | EmptyString => EmptyString
  | String c r =>
      match rstrip_sep r with
      | EmptyString => if is_sep c then EmptyString else String c EmptyString
      | r' => String c r'
      end
  end.

(** [posixpath.split(p)] *)
Definition split (p : string) : string * string :=
  let i := rfind_sep_succ p in
  let head := slice_to i p in
  let tail := slice_from i p in
  let head := if nonempty head && negb (all_sep head) then rstrip_sep head else head in
  (head, tail).

(** [posixpath.dirname(p)] *)
Definition dirname (p : string) : string :=
  let i := rfind_sep_succ p in
  let head := slice_to i p in
  if nonempty head && negb (all_sep head) then rstrip_sep head else head.

(** [posixpath.join(a, b)] with one component [b]. *)
Definition join (a b : string) : string :=
  if startswith_sep b then b
  else if negb (nonempty a) || endswith_sep a then a +:+ b
  else a +:+ sep +:+ b.

(** [s.split("/")]: the pieces between separators, empty ones included. *)
Fixpoint split_sep (s : string) : list string :=
  match s with
  | EmptyString => [EmptyString]
  | String c r =>
      if is_sep c then EmptyString :: split_sep r
      else match split_sep r with
           | w :: ws => String c w :: ws
           | [] => [String c EmptyString]
           end
  end.

(** The names a path resolution looks up: the non-empty pieces. *)
Definition components (p : string) : list string :=
  filter (λ w, w ≠ EmptyString) (split_sep p).

(** A file name that holds no separator. *)
Fixpoint sep_free (s : string) : bool :=
  match s with
  | EmptyString => true
  | String c r => negb (is_sep c) && sep_free r
  end.

(** [n] separators in a row. *)
Fixpoint seps (n : nat) : string :=
  match n with
  | O => EmptyString
  | S k => String "/" (seps k)
  end.

(** A path is stripped when it does not end in a separator, unless it
    holds nothing else. *)
Definition stripped (p : string) : Prop :=
  all_sep p = true ∨ endswith_sep p = false.

(** What [dirname] leaves of a folder: the folder without the separators
    at its end, or the folder itself when it holds separators only. *)
Definition strip (f : string) : string :=
  if all_sep f then f else rstrip_sep f.

#[global] Arguments split : simpl never.
#[global] Arguments dirname : simpl never.
#[global] Arguments join : simpl never.
#[global] Arguments components : simpl never.

End posixpath.

(** The head of a split is shorter than the path whenever the tail is not
    empty: the measure on which [os.makedirs] recurses. *)

Lemma slice_length (i : nat) (p : string) :
  String.length (posixpath.slice_to i p) + String.length (posixpath.slice_from i p)
  = String.length p.
Proof.
  revert i; induction p as [|c r IH]; intros [|i]; simpl; try done.
  by rewrite IH.
Qed.

Lemma rstrip_sep_length (s : string) :
  String.length (posixpath.rstrip_sep s) ≤ String.length s.
Proof.
  induction s as [|c r IH]; simpl; [done|].
  destruct (posixpath.rstrip_sep r); [destruct (posixpath.is_sep c)|]; simpl in *; lia.
Qed.

Lemma split_length (p head tail : string) :
  posixpath.split p = (head, tail) →
  String.length head + String.length tail ≤ String.length p.
Proof.
  unfold posixpath.split. intros [= <- <-].
  pose proof (slice_length (posixpath.rfind_sep_succ p) p).
  pose proof (rstrip_sep_length (posixpath.slice_to (posixpath.rfind_sep_succ p) p)).
  destruct (_ && _); lia.
Qed.

Lemma nonempty_length (s : string) :
  posixpath.nonempty s = true → 0 < String.length s.
Proof. destruct s; simpl; [done|lia]. Qed.

(** ** The file system

    A tree of directories and regular files, without links, as the process
    meets it on its host.  A location is the list of names from the node up
    to the root, innermost first: [["x.txt"; "out"]] is [/out/x.txt], [[]]
    is the root. *)

Definition loc : Type := list string.

Inductive node : Type :=
| Dir
| File (content : string).

(** What the process asks of the operating system; paths and data are
    bytes. *)
Inductive syscall : Type :=
| SysStat (p : string)
| SysMkdir (p : string)
| SysOpen (p : string)
| SysWrite (file : loc) (data : string).

Definition ENOSPC : nat := 28.
Definition ENAMETOOLONG : nat := 36.

(** The host: the limits of the operating system and of the interpreter,
    and what the operating system refuses for reasons that the tree does
    not show (access rights, free space, quotas, devices).
    - [name_max] and [path_max] are the longest name and the longest path
      that the kernel takes, in bytes;
    - [recursion_room] is the number of calls of [os.makedirs] that can be
      nested in the first one before the recursion limit of the
      interpreter is reached;
    - [refuses call] is the error with which the operating system refuses
      [call], if it does;
    - [accepts call] is the number of bytes of a refused write that reach
      the file all the same. *)
Record Host : Type := mkHost {
  name_max : nat;
  path_max : nat;
  recursion_room : nat;
  refuses : syscall → option exception;
  accepts : syscall → nat
}.

Record FileSystem : Type := mkFileSystem {
  nodes : gmap (list string) node;
  cwd : loc;
  host : Host
}.

(** The root directory always exists. *)
Definition node_at (fs : FileSystem) (l : loc) : option node :=
  match l with
  | [] => Some Dir
  | _ => nodes fs !! l
  end.

Definition put_node (l : loc) (n : node) (fs : FileSystem) : FileSystem :=
  {| nodes := <[l := n]> (nodes fs); cwd := cwd fs; host := host fs |}.

(** Every node other than the root sits in a directory. *)
Definition fs_wf (fs : FileSystem) : Prop :=
  map_Forall (λ l _, match l with [] => True | _ :: up => node_at fs up = Some Dir end)
             (nodes fs).

(** Programs that run against the file system: an outcome and the file
    system left behind. *)
Definition io (A : Type) : Type := FileSystem → outcome A * FileSystem.

#[global] Instance io_ret : MRet io := λ A a fs, (Return a, fs).

#[global] Instance io_bind : MBind io := λ A B k m fs,
  match m fs with
  | (Return a, fs') => k a fs'
  | (Raise e, fs') => (Raise e, fs')
  end.

(** [try: m  except: handler] *)
Definition try_except {A : Type} (m : io A) (handler : exception → io A) : io A :=
  λ fs, match m fs with
        | (Raise e, fs') => handler e fs'
        | r => r
        end.

(** [isinstance(e, OSError)] *)
Definition is_OSError (e : exception) : bool :=
  match e with
  | FileNotFoundError | FileExistsError | NotADirectoryError | IsADirectoryError
  | PermissionError | OSError _ => true
  | TypeError | ValueError | UnicodeEncodeError | RecursionError => false
  end.

Definition is_FileExistsError (e : exception) : bool :=
  match e with
  | FileExistsError => true
  | _ => false
  end.

(** The error of the operating system for a call; the operating system
    raises nothing but [OSError]s. *)
Definition os_refusal (fs : FileSystem) (call : syscall) : option exception :=
  match refuses (host fs) call with
  | Some e => if is_OSError e then Some e else None
  | None => None
  end.

(** *** Texts and paths as bytes *)

Definition byte_in (lo hi : nat) (c : ascii) : bool :=
  (lo <=? nat_of_ascii c) && (nat_of_ascii c <=? hi).

(** The first two bytes [ED A0..BF] of a surrogate. *)
Definition surrogate_lead (a b : ascii) : bool :=
  byte_in 237 237 a && byte_in 160 191 b.

Fixpoint has_surrogate (s : string) : bool :=
  match s with
  | EmptyString => false
  | String a r =>
      match r with
      | String b _ => surrogate_lead a b
      | EmptyString => false
      end || has_surrogate r
  end.

(** [text.encode("utf-8")], as the text layer of an open file does it:
    surrogates are not allowed. *)
Definition utf8_encode (text : string) : outcome string :=
  if has_surrogate text then Raise UnicodeEncodeError else Return text.

Definition cons_byte (c : ascii) (r : outcome string) : outcome string :=
  match r with
  | Return s => Return (String c s)
  | Raise e => Raise e
  end.

(** [os.fsencode(p)]: UTF-8 with [surrogateescape].  The surrogates
    [U+DC80..U+DCFF] (bytes [ED B2..B3 xx]) stand for the single bytes
    [80..FF]; any other surrogate cannot be encoded. *)
Fixpoint fsencode (p : string) : outcome string :=
  match p with
  | EmptyString => Return EmptyString
  | String a r =>
      match r with
      | String b (String c r') =>
          if surrogate_lead a b
          then if byte_in 178 179 b
               then cons_byte (ascii_of_nat (nat_of_ascii c + 64 * (nat_of_ascii b - 178)))
                              (fsencode r')
               else Raise UnicodeEncodeError
          else cons_byte a (fsencode r)
      | String b EmptyString =>
          if surrogate_lead a b then Raise UnicodeEncodeError else cons_byte a (fsencode r)
      | EmptyString => cons_byte a (fsencode r)
      end
  end.

Fixpoint has_nul (s : string) : bool :=
  match s with
  | EmptyString => false
  | String c r => byte_in 0 0 c || has_nul r
  end.

(** A path as a system call takes it: encoded, and refused with
    [ValueError] when it holds a null byte. *)
Definition path_arg (p : string) : outcome string :=
  match fsencode p with
  | Return b => if has_nul b then Raise ValueError else Return b
  | Raise e => Raise e
  end.

(** *** Path resolution *)

(** One lookup: the current location must be a directory and the name
    must not be longer than the file system takes; [.] stays, [..] goes up
    (the root is its own parent), a name goes down, whether or not that
    entry exists. *)
Definition move (cur : loc) (c : string) : loc :=
  if bool_decide (c = ".") then cur
  else if bool_decide (c = "..") then tail cur
  else c :: cur.

Definition name_fits (fs : FileSystem) (c : string) : bool :=
  String.length c <=? name_max (host fs).

Definition step (fs : FileSystem) (cur : loc) (c : string) : outcome loc :=
  match node_at fs cur with
  | Some Dir => if name_fits fs c then Return (move cur c) else Raise (OSError ENAMETOOLONG)
  | Some (File _) => Raise NotADirectoryError
  | None => Raise FileNotFoundError
  end.

Fixpoint walk (fs : FileSystem) (cur : loc) (cs : list string) : outcome loc :=
  match cs with
  | [] => Return cur
  | c :: rest =>
      match step fs cur c with
      | Return next => walk fs next rest
      | Raise e => Raise e
      end
  end.

(** Where a relative or absolute path starts. *)
Definition start (fs : FileSystem) (p : string) : loc :=
  if posixpath.startswith_sep p then [] else cwd fs.

(** The location a path names; the empty path names nothing, and a path
    longer than the kernel takes is not looked at. *)
Definition resolve (fs : FileSystem) (p : string) : outcome loc :=
  if posixpath.nonempty p
  then if String.length p <=? path_max (host fs)
       then walk fs (start fs p) (posixpath.components p)
       else Raise (OSError ENAMETOOLONG)
  else Raise FileNotFoundError.

(** The location that the path [p] of a Python call names: the path is
    encoded, then resolved. *)
Definition lookup (fs : FileSystem) (p : string) : outcome loc :=
  match path_arg p with
  | Return b => resolve fs b
  | Raise e => Raise e
  end.

(** The location that a system call finds for the path [p] of a Python
    call: the path is encoded; the empty path names nothing; the operating
    system may refuse; otherwise the path is resolved. *)
Definition locate (fs : FileSystem) (call : string → syscall) (p : string) : outcome loc :=
  match path_arg p with
  | Return b =>
      if posixpath.nonempty b
      then match os_refusal fs (call b) with
           | Some e => Raise e
           | None => resolve fs b
           end
      else Raise FileNotFoundError
  | Raise e => Raise e
  end.

(** The node at a location found for the path [p].  A path that ends in a
    separator names a directory only; the encoding keeps the separators. *)
Definition node_of (fs : FileSystem) (p : string) (l : loc) : outcome node :=
  match node_at fs l with
  | Some Dir => Return Dir
  | Some (File c) =>
      if posixpath.endswith_sep p then Raise NotADirectoryError else Return (File c)
  | None => Raise FileNotFoundError
  end.

(** [os.stat(p)]: the node a path names. *)
Definition stat (fs : FileSystem) (p : string) : outcome node :=
  match locate fs SysStat p with
  | Return l => node_of fs p l
  | Raise e => Raise e
  end.

Module os.

Definition inspect {A : Type} (a : A) : {b : A | a = b} := exist _ a eq_refl.

(** [os.path.exists(p)]: false when [os.stat] raises [OSError] or
    [ValueError]; it raises nothing else. *)
Definition path_exists (fs : FileSystem) (p : string) : bool :=
  match stat fs p with
  | Return _ => true
  | Raise _ => false
  end.

(** [os.path.isdir(p)] *)
Definition path_isdir (fs : FileSystem) (p : string) : bool :=
  match stat fs p with
  | Return Dir => true
  | _ => false
  end.

(** [os.mkdir(p)] *)
Definition mkdir (p : string) : io unit := λ fs,
  match locate fs SysMkdir p with
  | Return l =>
      match node_at fs l with
      | Some _ => (Raise FileExistsError, fs)
      | None => (Return (), put_node l Dir fs)
      end
  | Raise e => (Raise e, fs)
  end.

(** The [try: mkdir(name) except OSError: ...] block that ends
    [os.makedirs]. *)
Definition mkdir_tolerant (name : string) (exist_ok : bool) : io unit :=
  try_except (mkdir name)
    (λ e fs, if is_OSError e
             then if negb exist_ok || negb (path_isdir fs name)
                  then (Raise e, fs)
                  else (Return (), fs)
             else (Raise e, fs)).

(** The first lines of [os.makedirs]:
    [head, tail = path.split(name)], and once more on [head] when [tail]
    is empty. *)
Definition makedirs_split (name : string) : string * string :=
  let (head, tail) := posixpath.split name in
  if posixpath.nonempty tail then (head, tail) else posixpath.split head.

Lemma makedirs_split_shorter (name head tail : string) :
  makedirs_split name = (head, tail) →
  posixpath.nonempty tail = true →
  String.length head < String.length name.
Proof.
  unfold makedirs_split. destruct (posixpath.split name) as [h t] eqn:E1.
  apply split_length in E1. intros E2 Ht.
  destruct (posixpath.nonempty t) eqn:Hn.
  - injection E2 as <- <-. apply nonempty_length in Ht. lia.
  - apply split_length in E2. apply nonempty_length in Ht. lia.
Qed.

(** [os.makedirs(name, exist_ok=exist_ok)], entered with [depth] calls of
    it pending.  The recursive call is on [head], which is shorter than
    [name]; it raises [RecursionError], before anything is made, when the
    interpreter has no room for it. *)
Equations? makedirs_at (depth : nat) (name : string) (exist_ok : bool) (fs : FileSystem)
  : outcome unit * FileSystem by wf (String.length name) lt :=
  makedirs_at depth name exist_ok fs with inspect (makedirs_split name) := {
    | exist _ (head0, tail0) Hsplit
        with inspect (posixpath.nonempty head0 && posixpath.nonempty tail0
                      && negb (path_exists fs head0)) := {
        | exist _ true Hcond
            with inspect (bool_decide (depth < recursion_room (host fs))) := {
            | exist _ true _ =>
                match makedirs_at (S depth) head0 exist_ok fs with
                | (Raise e, fs1) =>
                    if is_FileExistsError e
                    then if bool_decide (tail0 = ".") then (Return (), fs1)
                         else mkdir_tolerant name exist_ok fs1
                    else (Raise e, fs1)
                | (Return _, fs1) =>
                    if bool_decide (tail0 = ".") then (Return (), fs1)
                    else mkdir_tolerant name exist_ok fs1
                end
            | exist _ false _ => (Raise RecursionError, fs) }
        | exist _ false _ => mkdir_tolerant name exist_ok fs } }.
Proof.
  apply andb_prop in Hcond as [[_ Htail]%andb_prop _].
  by eapply makedirs_split_shorter.
Qed.

Definition makedirs (name : string) (exist_ok : bool) : io unit :=
  makedirs_at 0 name exist_ok.

End os.

(** *** Files opened for writing *)

(** [open(p, "w", encoding="utf-8")]: the file is created or truncated; the
    handle is its location. *)
Definition open_w (p : string) : io loc := λ fs,
  match locate fs SysOpen p with
  | Return l =>
      match node_at fs l with
      | Some Dir => (Raise IsADirectoryError, fs)
      | Some (File _) =>
          if posixpath.endswith_sep p then (Raise NotADirectoryError, fs)
          else (Return l, put_node l (File "") fs)
      | None =>
          if posixpath.endswith_sep p then (Raise IsADirectoryError, fs)
          else (Return l, put_node l (File "") fs)
      end
  | Raise e => (Raise e, fs)
  end.

(** The bytes [data] are put at the end of an open file. *)
Definition append (file : loc) (data : string) (fs : FileSystem) : FileSystem :=
  match node_at fs file with
  | Some (File c) => put_node file (File (c +:+ data)) fs
  | _ => fs
  end.

(** [file.write(text)] followed by the close that ends the [with] block.
    A text that cannot be encoded raises before a byte is written; a write
    that the operating system refuses leaves the bytes it accepted. *)
Definition file_write (file : loc) (text : string) : io unit := λ fs,
  match utf8_encode text with
  | Return data =>
      match os_refusal fs (SysWrite file data) with
      | Some e =>
          (Raise e,
           append file (posixpath.slice_to (accepts (host fs) (SysWrite file data)) data) fs)
      | None => (Return (), append file data fs)
      end
  | Raise e => (Raise e, fs)
  end.

(** What the path of a Python call holds when it names a regular file of
    the tree. *)
Definition read_file (fs : FileSystem) (p : string) : outcome string :=
  match lookup fs p with
  | Return l =>
      match node_of fs p l with
      | Return (File c) => Return c
      | Return Dir => Raise IsADirectoryError
      | Raise e => Raise e
      end
  | Raise e => Raise e
  end.

(** *** The way to a path

    The locations a resolution of the names [cs] passes, starting at [cur],
    when every directory it needs is there: [cur] itself first, the
    location named last. *)
Fixpoint visited (cur : loc) (cs : list string) : list loc :=
  cur :: match cs with
         | [] => []
         | c :: rest => visited (move cur c) rest
         end.

Definition destination (cur : loc) (cs : list string) : loc := foldl move cur cs.

Definition way (fs : FileSystem) (p : string) : list loc :=
  visited (start fs p) (posixpath.components p).

Definition target (fs : FileSystem) (p : string) : loc :=
  destination (start fs p) (posixpath.components p).

Definition absent_or_dir (fs : FileSystem) (l : loc) : bool :=
  match node_at fs l with
  | None | Some Dir => true
  | Some (File _) => false
  end.

Definition is_dir (fs : FileSystem) (l : loc) : bool :=
  match node_at fs l with
  | Some Dir => true
  | _ => false
  end.

(** The way to [p] is clear when it starts in a directory and no regular
    file lies on it. *)
Definition clear_way (fs : FileSystem) (p : string) : bool :=
  is_dir fs (start fs p) && forallb (absent_or_dir fs) (way fs p).

(** The operating system refuses nothing. *)
Definition permissive (fs : FileSystem) : Prop :=
  ∀ call, os_refusal fs call = None.

(** A path that holds neither a surrogate nor a null byte is its own
    encoding. *)
Definition plain (p : string) : bool :=
  negb (has_surrogate p) && negb (has_nul p).

(** A path fits the host: it is plain, not longer than the kernel takes,
    and so is each of its names. *)
Definition path_fits (fs : FileSystem) (p : string) : bool :=
  plain p && (String.length p <=? path_max (host fs))
  && forallb (name_fits fs) (posixpath.components p).

(** [fs'] is [fs] with a directory at each of the locations [ls]. *)
Definition made (fs fs' : FileSystem) (ls : list loc) : Prop :=
  cwd fs' = cwd fs ∧ host fs' = host fs ∧ fs_wf fs'
  ∧ (∀ l, l ∈ ls → node_at fs' l = Some Dir)
  ∧ (∀ l, l ∉ ls → node_at fs' l = node_at fs l).

(** ** [export_verdict_to_txt] *)

(** agent.py, lines 39-50.  Nothing is caught: an exception of
    [os.makedirs], [open] or [write] leaves the function as it is. *)
Definition export_verdict_to_txt (tool_context : ToolContext)
    (folder file_name text_content : string) : io (gmap string string) :=
  let path := posixpath.join folder file_name in
  _ ← os.makedirs (posixpath.dirname path) true;
  file ← open_w path;
  _ ← file_write file text_content;
  mret status_success.

(** ** Model selection *)

(** [os.getenv(name)]: [None] when the variable is not set. *)
Definition getenv (environ : gmap string string) (name : string) : option string :=
  environ !! name.

(** agent.py, line 26; [environ] is the environment after [load_dotenv()]. *)
Definition model_name (environ : gmap string string) : option string :=
  getenv environ "MODEL".

(** A file name proper: not empty, no separator, neither [.] nor [..]. *)
Definition file_name_ok (n : string) : bool :=
  posixpath.sep_free n && posixpath.nonempty n
  && negb (bool_decide (n = ".")) && negb (bool_decide (n = "..")).

(** The place of the file [n] in folder [f] is free when it is neither a
    directory nor one of the locations on the way to [f]. *)
Definition slot_free (fs : FileSystem) (f n : string) : bool :=
  negb (is_dir fs (n :: target fs f))
  && negb (bool_decide (n :: target fs f ∈ way fs f)).

(** A text that UTF-8 encodes: it holds no surrogate. *)
Definition encodable (t : string) : bool := negb (has_surrogate t).

(** The folder [f] and the file name [n] are within the limits of the
    host: the path of the file fits, and the interpreter has room for the
    calls of [os.makedirs], one for each name of the folder. *)
Definition within_limits (fs : FileSystem) (f n : string) : bool :=
  path_fits fs (posixpath.join f n)
  && (length (posixpath.components f) <=? recursion_room (host fs)).

(** *** File systems used in examples *)

Definition no_context : ToolContext := {| state := ∅ |}.

(** A host with the limits of Linux, an interpreter with room for 900
    nested calls, and an operating system that refuses nothing. *)
Definition quiet_host : Host :=
  {| name_max := 255; path_max := 4095; recursion_room := 900;
     refuses := λ _, None; accepts := λ _, 0 |}.

(** The same host with a full disk: every write is refused, and nothing
    of it reaches the file. *)
Definition full_disk_host : Host :=
  {| name_max := 255; path_max := 4095; recursion_room := 900;
     refuses := λ call, match call with
                        | SysWrite _ _ => Some (OSError ENOSPC)
                        | _ => None
                        end;
     accepts := λ _, 0 |}.

(** The same host where the process may not make directories. *)
Definition read_only_host : Host :=
  {| name_max := 255; path_max := 4095; recursion_room := 900;
     refuses := λ call, match call with
                        | SysMkdir _ => Some PermissionError
                        | _ => None
                        end;
     accepts := λ _, 0 |}.

(** The same host with an interpreter close to its recursion limit: room
    for one nested call of [os.makedirs]. *)
Definition shallow_host : Host :=
  {| name_max := 255; path_max := 4095; recursion_room := 1;
     refuses := λ _, None; accepts := λ _, 0 |}.

(** The working directory [/app], empty. *)
Definition app_fs : FileSystem :=
  {| nodes := {[ ["app"] := Dir ]}; cwd := ["app"]; host := quiet_host |}.

(** [/app] holding a regular file [reports]. *)
Definition reports_file_fs : FileSystem :=
  {| nodes := <[ ["reports"; "app"] := File "old" ]> {[ ["app"] := Dir ]};
     cwd := ["app"]; host := quiet_host |}.

(** [/app] holding the directory [out] and in it the directory [drafts]. *)
Definition drafts_dir_fs : FileSystem :=
  {| nodes := <[ ["drafts"; "out"; "app"] := Dir ]>
                (<[ ["out"; "app"] := Dir ]> {[ ["app"] := Dir ]});
     cwd := ["app"]; host := quiet_host |}.

(** [/app] holding the report of an earlier run and a directory [etc]. *)
Definition report_fs : FileSystem :=
  {| nodes := <[ ["Napoleon.txt"; "historical_court_reports"; "app"] := File "draft" ]>
                (<[ ["historical_court_reports"; "app"] := Dir ]>
                   (<[ ["etc"] := Dir ]> {[ ["app"] := Dir ]}));
     cwd := ["app"]; host := quiet_host |}.

(** A file system on another host. *)
Definition on_host (h : Host) (fs : FileSystem) : FileSystem :=
  {| nodes := nodes fs; cwd := cwd fs; host := h |}.

(** A name of 256 bytes, a file name that holds a null byte, and a text
    that holds the lone surrogate [U+D800]. *)
Definition long_name : string := string_of_list_ascii (replicate 256 "a"%char).

Definition nul_name : string := String "000"%char "x.txt".

Definition surrogate_text : string :=
  String "237"%char (String "160"%char (String "128"%char "")).

(** ** The agents of the module

    The objects that [agent.py] builds at import time.  The constructors
    are those of the agent framework; a constructor call of the source is
    a constructor application here, with the keyword arguments in the order
    of the fields. *)

(** The tool objects that appear in the [tools] lists. *)
Inductive tool : Type :=
| Wikipedia            (* LangchainTool(tool=WikipediaQueryRun(...)) *)
| UpdateSessionState   (* update_session_state *)
| ExportVerdictToTxt   (* export_verdict_to_txt *)
| ExitLoop.            (* google.adk.tools.exit_loop *)

#[global] Instance tool_eq_dec : EqDecision tool.
Proof. solve_decision. Defined.

Inductive agent : Type :=
| Agent (name : string) (model : option string) (description instruction : string)
        (tools : list tool) (sub_agents : list agent)
| SequentialAgent (name description : string) (sub_agents : list agent)
| LoopAgent (name : string) (sub_agents : list agent) (max_iterations : nat)
| ParallelAgent (name : string) (sub_agents : list agent).

Definition agent_name (a : agent) : string :=
  match a with
  | Agent name _ _ _ _ _ => name
  | SequentialAgent name _ _ => name
  | LoopAgent name _ _ => name
  | ParallelAgent name _ => name
  end.

Definition agent_model (a : agent) : option (option string) :=
  match a with
  | Agent _ model _ _ _ _ => Some model
  | _ => None
  end.

(** A text of several lines. *)
Definition text (lines : list string) : string :=
  String.concat (String "010" "") lines.

Section AgentModule.

(** The process environment after [load_dotenv()]. *)
Variable environ : gmap string string.

Definition the_admirer : agent :=
  Agent "admirer" (model_name environ)
    "Researches significant achievements and positive legacies."
    (text ["";
      "    CONTEXT: Analyzing { SUBJECT_TOPIC? }";
      "    ";
      "    TASK:";
      "    - [Technical Constraint] Wiki Research: Search Wikipedia specifically for 'achievements', 'success', or 'positive impact'.";
      "    - ALWAYS append 'achievements' or 'contributions' to your search queries.";
      "    - Summarize findings into 3-4 clear bullet points.";
      "    - Use 'update_session_state' to save this summary into 'pos_data'.";
      "    "])
    [Wikipedia; UpdateSessionState] [].

Definition the_critic : agent :=
  Agent "critic" (model_name environ)
    "Researches controversies, failures, and criticisms."
    (text ["";
      "    CONTEXT: Analyzing { SUBJECT_TOPIC? }";
      "    ";
      "    TASK:";
      "    - [Technical Constraint] Wiki Research: Search Wikipedia specifically for 'controversies', 'failures', or 'criticisms'.";
      "    - ALWAYS append 'controversy' or 'criticism' to your search queries.";
      "    - Summarize findings into 3-4 clear bullet points.";
      "    - Use 'update_session_state' to save this summary into 'neg_data'.";
      "    "])
    [Wikipedia; UpdateSessionState] [].

Definition investigation_stage : agent :=
  ParallelAgent "investigation_stage" [the_admirer; the_critic].

Definition the_judge : agent :=
  Agent "judge" (model_name environ)
    "Evaluates balance and completeness of the evidence."
    (text ["";
      "    EVIDENCE REVIEW:";
      "    Positives (from Admirer): { pos_data? }";
      "    Negatives (from Critic): { neg_data? }";
      "";
      "    EVALUATION:";
      "    - [Technical Constraint] Loop Logic: Check if the data is balanced and sufficiently detailed for { SUBJECT_TOPIC? }.";
      "    - If one side is missing or too thin, provide specific feedback for the next search.";
      "    - If the analysis is neutral and complete, you MUST call the 'exit_loop' tool.";
      "    "])
    [ExitLoop] [].

Definition trial_review_loop : agent :=
  LoopAgent "trial_review_loop" [investigation_stage; the_judge] 3.

Definition verdict_scribe : agent :=
  Agent "verdict_scribe" (model_name environ)
    "Synthesizes findings into a balanced final report."
    (text ["";
      "    FINAL EVIDENCE:";
      "    Positives: { pos_data? }";
      "    Negatives: { neg_data? }";
      "";
      "    INSTRUCTIONS:";
      "    - Compile a comprehensive and neutral academic report for { SUBJECT_TOPIC? }.";
      "    - Use 'export_verdict_to_txt' to save it to the 'historical_court_reports' directory.";
      "    - Filename: { SUBJECT_TOPIC? }.txt";
      "    ";
      "    FORMAT:";
      "    1. Introduction";
      "    2. Achievements & Successes";
      "    3. Controversies & Criticisms";
      "    4. Neutral Conclusion";
      "    "])
    [ExportVerdictToTxt] [].

Definition court_system_workflow : agent :=
  SequentialAgent "court_system_workflow" "Main sequence for the historical analysis."
    [trial_review_loop; verdict_scribe].

Definition inquiry_clerk : agent :=
  Agent "inquiry_clerk" (model_name environ)
    "Entry point for receiving the historical topic."
    (text ["";
      "    - Welcome the user to 'The Historical Court'.";
      "    - Ask for a historical figure or event to analyze.";
      "    - Use 'update_session_state' to save the input as 'SUBJECT_TOPIC'.";
      "    - Transfer control to 'court_system_workflow'.";
      "    "])
    [UpdateSessionState] [court_system_workflow].

Definition root_agent : agent := inquiry_clerk.

End AgentModule.

(** *** The graph of an agent tree

    What is left of an agent when prompts, models and tools are put aside:
    the kind of each node, the name of each agent step, the bound of each
    loop, and the children in order. *)
Inductive node_kind : Type :=
| AgentStep (name : string)
| SequentialStep
| ParallelStep
| LoopStep (max_iterations : nat).

Inductive graph : Type :=
| Node (kind : node_kind) (children : list graph).

Fixpoint graph_of (a : agent) : graph :=
  match a with
  | Agent name _ _ _ _ subs => Node (AgentStep name) (map graph_of subs)
  | SequentialAgent _ _ subs => Node SequentialStep (map graph_of subs)
  | LoopAgent _ subs max => Node (LoopStep max) (map graph_of subs)
  | ParallelAgent _ subs => Node ParallelStep (map graph_of subs)
  end.

(** The tree as the specification words it:
    [Sequential(entry, Sequential(Loop(3, [Parallel(admirer, critic), judge]), scribe))]. *)
Definition specified_main : graph :=
  Node SequentialStep
    [Node (LoopStep 3)
       [Node ParallelStep [Node (AgentStep "admirer") []; Node (AgentStep "critic") []];
        Node (AgentStep "judge") []];
     Node (AgentStep "verdict_scribe") []].

Definition specified_root : graph :=
  Node SequentialStep [Node (AgentStep "inquiry_clerk") []; specified_main].

(** An environment that selects a model, and one that does not. *)
Definition model_environ : gmap string string := {[ "MODEL" := "gemini-2.5-flash" ]}.

Definition bare_environ : gmap string string := {[ "HOME" := "/root" ]}.

(** ** The workflow engine

    The agent framework that runs the tree ([Agent], [SequentialAgent],
    [ParallelAgent], [LoopAgent], [exit_loop]) is imported by [agent.py] and
    is not part of the repository.  The definitions below follow the
    engine that the specification describes in its sections 3 to 7. *)

(** Modelled from the spec: the run context of the framework, which is
    missing; the world of one run is the session state (sections 3 and 4.1)
    and the file system (section 6). *)
Record World : Type := mkWorld {
  context : ToolContext;
  files : FileSystem
}.

(** Modelled from the spec: the function calls of the framework, which
    are missing; a tool invocation (section 3) is a tool with its
    arguments, and [CallTransfer] the hand-off of an agent to one of its
    sub-agents. *)
Inductive tool_call : Type :=
| CallWikipedia (query : string)
| CallUpdateSessionState (key value : string)
| CallExportVerdict (folder file_name text_content : string)
| CallExitLoop
| CallTransfer (agent_name : string).

(** Modelled from the spec: the result handling of the framework, which is
    missing; the status of a tool invocation (sections 3 and 7) is success,
    a failure that is reported and does not end the run, a call that the
    step may not make, or the loop control signal. *)
Inductive tool_status : Type :=
| Succeeded
| Failed (e : exception)
| Refused
| Signalled.

Inductive event : Type :=
| EvStep (agent_name : string)
| EvCall (agent_name : string) (call : tool_call) (status : tool_status)
| EvIteration (loop_name : string) (index : nat).

(** Modelled from the spec: the event stream of the framework, which is
    missing; what a step leaves (section 4.3) is the world, the number of
    agent steps run so far, the events in order, whether the loop control
    signal is raised, and a hand-off asked for. *)
Record Run : Type := mkRun {
  world : World;
  clock : nat;
  trace : list event;
  signal : bool;
  transfer : option string
}.

(** Modelled from the spec: the tool dispatch of the framework and its
    [exit_loop] tool, which are missing (section 4.2).  The state append and
    the file export are the functions of [agent.py]; a raised exception is
    a failed invocation (section 7). *)
Definition invoke (call : tool_call) (w : World) : tool_status * World :=
  match call with
  | CallWikipedia _ => (Succeeded, w)
  | CallUpdateSessionState key value =>
      match update_session_state (context w) key value with
      | (Return _, ctx) => (Succeeded, {| context := ctx; files := files w |})
      | (Raise e, ctx) => (Failed e, {| context := ctx; files := files w |})
      end
  | CallExportVerdict folder file_name text_content =>
      match export_verdict_to_txt (context w) folder file_name text_content (files w) with
      | (Return _, fs) => (Succeeded, {| context := context w; files := fs |})
      | (Raise e, fs) => (Failed e, {| context := context w; files := fs |})
      end
  | CallExitLoop => (Signalled, w)
  | CallTransfer _ => (Succeeded, w)
  end.

(** Whether a step with the tools [tools] and the sub-agents named [subs]
    may make a call. *)
Definition bound (tools : list tool) (subs : list string) (call : tool_call) : bool :=
  match call with
  | CallWikipedia _ => bool_decide (Wikipedia ∈ tools)
  | CallUpdateSessionState _ _ => bool_decide (UpdateSessionState ∈ tools)
  | CallExportVerdict _ _ _ => bool_decide (ExportVerdictToTxt ∈ tools)
  | CallExitLoop => bool_decide (ExitLoop ∈ tools)
  | CallTransfer target => bool_decide (target ∈ subs)
  end.

Definition stay (now : nat) (w : World) : Run :=
  {| world := w; clock := now; trace := []; signal := false; transfer := None |}.

(** Modelled from the spec: the tool loop of the framework's [Agent], which
    is missing; the calls of one step are made in order (section 4.3), and
    the loop control signal or a hand-off ends the step. *)
Fixpoint run_calls (name : string) (tools : list tool) (subs : list string)
    (calls : list tool_call) (now : nat) (w : World) : Run :=
  match calls with
  | [] => stay now w
  | call :: rest =>
      if bound tools subs call then
        match call, invoke call w with
        | _, (Signalled, w') =>
            {| world := w'; clock := now; trace := [EvCall name call Signalled];
               signal := true; transfer := None |}
        | CallTransfer target, (status, w') =>
            {| world := w'; clock := now; trace := [EvCall name call status];
               signal := false; transfer := Some target |}
        | _, (status, w') =>
            let r := run_calls name tools subs rest now w' in
            {| world := world r; clock := clock r; trace := EvCall name call status :: trace r;
               signal := signal r; transfer := transfer r |}
        end
      else
        let r := run_calls name tools subs rest now w in
        {| world := world r; clock := clock r; trace := EvCall name call Refused :: trace r;
           signal := signal r; transfer := transfer r |}
  end.

Definition step_fn : Type := nat → World → Run.

(** Modelled from the spec: the run of the framework's [SequentialAgent],
    which is missing (section 4.4): the steps in order, each on the world
    its predecessor left; a raised signal ends the sequence, the steps
    after it do not run. *)
Fixpoint seq_steps (steps : list step_fn) : step_fn := λ now w,
  match steps with
  | [] => stay now w
  | s :: rest =>
      let r := s now w in
      if signal r then r
      else
        let r' := seq_steps rest (clock r) (world r) in
        {| world := world r'; clock := clock r'; trace := trace r ++ trace r';
           signal := signal r'; transfer := None |}
  end.

(** Modelled from the spec: the run of the framework's [ParallelAgent],
    which is missing (section 4.5): all steps run, here under the schedule
    that takes them one after the other in the order of the list; a signal
    raised by one of them is passed on after all have run. *)
Fixpoint par_steps (steps : list step_fn) : step_fn := λ now w,
  match steps with
  | [] => stay now w
  | s :: rest =>
      let r := s now w in
      let r' := par_steps rest (clock r) (world r) in
      {| world := world r'; clock := clock r'; trace := trace r ++ trace r';
         signal := signal r || signal r'; transfer := None |}
  end.

(** Modelled from the spec: the run of the framework's [LoopAgent], which is
    missing (section 4.6), in state [Running index] with [remaining]
    iterations to its bound.  A signal out of the body ends the loop
    ([Exited]) and is not passed on; with no iteration left the loop ends
    ([MaxedOut]). *)
Fixpoint loop_steps (name : string) (body : step_fn) (remaining index : nat) : step_fn :=
  λ now w,
  match remaining with
  | O => stay now w
  | S k =>
      let r := body now w in
      if signal r then
        {| world := world r; clock := clock r; trace := EvIteration name index :: trace r;
           signal := false; transfer := None |}
      else
        let r' := loop_steps name body k (S index) (clock r) (world r) in
        {| world := world r'; clock := clock r';
           trace := EvIteration name index :: trace r ++ trace r';
           signal := signal r'; transfer := None |}
  end.

Section Engine.

(** The reasoning capability, an external collaborator: the calls an agent
    makes in a step, given its name, the number of steps run so far and the
    world it finds.  Every step makes finitely many calls. *)
Variable capability : string → nat → World → list tool_call.

(** Modelled from the spec: the run of the framework's [Agent], which is
    missing (section 4.3): the step asks the capability for its calls and
    makes them. *)
Definition agent_step (name : string) (tools : list tool) (subs : list string) : step_fn :=
  λ now w,
  let r := run_calls name tools subs (capability name now w) (S now) w in
  {| world := world r; clock := clock r; trace := EvStep name :: trace r;
     signal := signal r; transfer := transfer r |}.

(** The sub-agent a hand-off names, if there is one. *)
Fixpoint named_step (target : string) (subs : list (string * step_fn)) : option step_fn :=
  match subs with
  | [] => None
  | (name, s) :: rest => if bool_decide (name = target) then Some s else named_step target rest
  end.

(** Modelled from the spec: the runner of the framework, which is missing
    (sections 4.3 to 4.6).  An agent with sub-agents hands off to the one
    its step names. *)
Fixpoint exec (a : agent) : step_fn :=
  match a with
  | Agent name _ _ _ tools subs => λ now w,
      let r := agent_step name tools (map agent_name subs) now w in
      match transfer r with
      | Some target =>
          match named_step target (map (λ sub, (agent_name sub, exec sub)) subs) with
          | Some s =>
              let r' := s (clock r) (world r) in
              {| world := world r'; clock := clock r'; trace := trace r ++ trace r';
                 signal := signal r'; transfer := None |}
          | None => r
          end
      | None => r
      end
  | SequentialAgent _ _ subs => seq_steps (map exec subs)
  | ParallelAgent _ subs => par_steps (map exec subs)
  | LoopAgent name subs max_iterations =>
      loop_steps name (seq_steps (map exec subs)) max_iterations 0
  end.

(** One iteration of [trial_review_loop]. *)
Definition review_round (environ : gmap string string) : step_fn :=
  seq_steps (map exec [investigation_stage environ; the_judge environ]).

End Engine.

(** Counting events. *)
Definition is_iteration (loop_name : string) (ev : event) : bool :=
  match ev with
  | EvIteration name _ => bool_decide (name = loop_name)
  | _ => false
  end.

Definition is_step (agent_name : string) (ev : event) : bool :=
  match ev with
  | EvStep name => bool_decide (name = agent_name)
  | _ => false
  end.

Definition count (p : event → bool) (tr : list event) : nat :=
  length (List.filter p tr).

(** A capability for examples: the admirer and the critic each store one
    finding per step, the judge leaves the loop in its second review. *)
Definition two_round_capability (name : string) (now : nat) (w : World) : list tool_call :=
  if bool_decide (name = "admirer") then
    [CallWikipedia "Napoleon achievements"; CallUpdateSessionState "pos_data" "a code of law"]
  else if bool_decide (name = "critic") then
    [CallWikipedia "Napoleon criticism"; CallUpdateSessionState "neg_data" "years of war"]
  else if bool_decide (name = "judge") then
    if bool_decide (now < 3) then [] else [CallExitLoop]
  else [].

(** A capability that never leaves the loop. *)
Definition restless_capability (name : string) (now : nat) (w : World) : list tool_call :=
  if bool_decide (name = "judge") then [] else [CallUpdateSessionState "pos_data" "more"].

Definition app_world : World := {| context := no_context; files := app_fs |}.

(** ** Further notions for the session state *)

(** The values that the calls [calls] append to [key], in call order. *)
Definition values_for (key : string) (calls : list (string * string)) : list string :=
  (filter (λ call, call.1 = key) calls).*2.

Definition is_str (x : pyval) : bool :=
  match x with
  | PyStr _ => true
  | _ => false
  end.

Definition is_str_list (x : pyval) : bool :=
  match x with
  | PyList items => forallb is_str items
  | _ => false
  end.

(** A state as the tools of the module build it: every key is bound to a
    list of strings. *)
Definition lists_of_strings (tool_context : ToolContext) : Prop :=
  map_Forall (λ _ x, is_str_list x = true) (state tool_context).

(** The outcomes of a run of tool calls, in call order. *)
Fixpoint run_outcomes (tool_context : ToolContext) (calls : list (string * string))
  : list (outcome (gmap string string)) :=
  match calls with
  | [] => []
  | (k, v) :: rest =>
      fst (update_session_state tool_context k v)
      :: run_outcomes (snd (update_session_state tool_context k v)) rest
  end.

(** ** Further notions for the file system *)

(** [fs'] is [fs] with some directories added, each at a location that
    meets [P]: nothing that was there is changed or removed, and what is
    new is a directory. *)
Definition adds_dirs (fs fs' : FileSystem) (P : loc → Prop) : Prop :=
  cwd fs' = cwd fs ∧ host fs' = host fs
  ∧ ∀ l, node_at fs' l = node_at fs l
         ∨ (node_at fs l = None ∧ node_at fs' l = Some Dir ∧ P l).

(** [c] is the beginning of [t]. *)
Definition begins (c t : string) : Prop := ∃ rest, t = c +:+ rest.
(** ** Properties of the session state *)

Section SessionState.

Implicit Types (ctx : ToolContext) (k v : string) (prev : list pyval).

Lemma stored_sequence_absent ctx k :
  state ctx !! k = None → stored_sequence ctx k = Some [].
Proof. intros H. unfold stored_sequence, state_get. by rewrite H. Qed.

Lemma stored_sequence_list ctx k prev :
  state ctx !! k = Some (PyList prev) → stored_sequence ctx k = Some prev.
Proof. intros H. unfold stored_sequence, state_get. by rewrite H. Qed.

Lemma stored_sequence_inv ctx k prev :
  stored_sequence ctx k = Some prev →
  (state ctx !! k = None ∧ prev = []) ∨ state ctx !! k = Some (PyList prev).
Proof.
  unfold stored_sequence, state_get.
  destruct (state ctx !! k) as [[| |l]|] eqn:E; simpl; intros [= <-]; auto.
Qed.

Lemma update_session_state_ok ctx k v prev :
  stored_sequence ctx k = Some prev →
  update_session_state ctx k v
  = (Return status_success, state_set ctx k (PyList (prev ++ [PyStr v]))).
Proof.
  unfold stored_sequence, update_session_state.
  destruct (state_get ctx k (PyList [])) as [| |l]; simpl; intros [= <-]; done.
Qed.

Lemma update_session_state_raises ctx k v :
  stored_sequence ctx k = None →
  update_session_state ctx k v = (Raise TypeError, ctx).
Proof.
  unfold stored_sequence, update_session_state.
  destruct (state_get ctx k (PyList [])) as [| |l]; simpl; intros [=]; done.
Qed.

Lemma stored_sequence_set_eq ctx k l :
  stored_sequence (state_set ctx k (PyList l)) k = Some l.
Proof. unfold stored_sequence, state_get, state_set; simpl. by rewrite lookup_insert_eq. Qed.

Lemma stored_sequence_set_ne ctx k k' x :
  k ≠ k' → stored_sequence (state_set ctx k x) k' = stored_sequence ctx k'.
Proof.
  intros Hne. unfold stored_sequence, state_get, state_set; simpl.
  by rewrite lookup_insert_ne.
Qed.

(** One call keeps what a key holds as a prefix of what it holds next. *)
Lemma update_session_state_prefix ctx k k' v prev :
  stored_sequence ctx k = Some prev →
  ∃ l, stored_sequence (snd (update_session_state ctx k' v)) k = Some l ∧ prev `prefix_of` l.
Proof.
  intros Hk. destruct (stored_sequence ctx k') as [p'|] eqn:Hk'.
  - rewrite (update_session_state_ok _ _ _ _ Hk'); simpl.
    destruct (decide (k' = k)) as [->|Hne].
    + rewrite stored_sequence_set_eq. assert (p' = prev) as -> by congruence.
      eexists; split; [done|]. by apply prefix_app_r.
    + rewrite stored_sequence_set_ne by done. by exists prev.
  - rewrite (update_session_state_raises _ _ _ Hk'); simpl. by exists prev.
Qed.

Lemma run_updates_prefix calls : ∀ ctx k prev,
  stored_sequence ctx k = Some prev →
  ∃ l, stored_sequence (run_updates ctx calls) k = Some l ∧ prev `prefix_of` l.
Proof.
  induction calls as [|[k' v] rest IH]; intros ctx k prev Hk; simpl.
  - by exists prev.
  - destruct (update_session_state_prefix ctx k k' v prev Hk) as (l & Hl & Hpre).
    destruct (IH _ _ _ Hl) as (l' & Hl' & Hpre').
    exists l'. split; [done|]. by etrans.
Qed.

End SessionState.


(** ** Facts about strings and [posixpath] *)

Section PathFacts.

Import posixpath.

Implicit Types (p h t a b s : string) (c : ascii).

Lemma str_app_nil_l s : "" +:+ s = s.
Proof. done. Qed.

Lemma str_app_cons c a b : String c a +:+ b = String c (a +:+ b).
Proof. done. Qed.

Lemma str_app_nil_r s : s +:+ "" = s.
Proof. induction s as [|c r IH]; [done|]. by rewrite str_app_cons, IH. Qed.

Lemma str_app_assoc a b s : (a +:+ b) +:+ s = a +:+ b +:+ s.
Proof. induction a as [|c r IH]; [done|]. by rewrite !str_app_cons, IH. Qed.

Lemma str_app_length a b : String.length (a +:+ b) = String.length a + String.length b.
Proof. induction a as [|c r IH]; [done|]. rewrite str_app_cons; simpl. by rewrite IH. Qed.

Lemma nonempty_true s : nonempty s = true ↔ s ≠ "".
Proof. by destruct s. Qed.

Lemma nonempty_false s : nonempty s = false ↔ s = "".
Proof. by destruct s. Qed.

Lemma is_sep_true c : is_sep c = true ↔ c = "/"%char.
Proof. unfold is_sep. apply Ascii.eqb_eq. Qed.

(** *** Separators at the end *)

Lemma all_sep_seps k : all_sep (seps k) = true.
Proof. induction k; [done|]. simpl. done. Qed.

Lemma all_sep_inv s : all_sep s = true → s = seps (String.length s).
Proof.
  induction s as [|c r IH]; simpl; [done|].
  intros [Hc Hr]%andb_prop. apply is_sep_true in Hc as ->. by rewrite <- IH.
Qed.

Lemma all_sep_app a b : all_sep (a +:+ b) = all_sep a && all_sep b.
Proof.
  induction a as [|c r IH]; [done|]. rewrite str_app_cons; simpl.
  by rewrite IH, andb_assoc.
Qed.

Lemma endswith_sep_app_sep a : endswith_sep (a +:+ "/") = true.
Proof.
  induction a as [|c r IH]; [done|]. rewrite str_app_cons.
  simpl. destruct (r +:+ "/") eqn:E; [by destruct r|done].
Qed.

Lemma endswith_sep_inv s : endswith_sep s = true → ∃ a, s = a +:+ "/".
Proof.
  induction s as [|c r IH]; simpl; [done|].
  destruct r as [|c' r'].
  - intros ->%is_sep_true. by exists "".
  - intros [a Ha]%IH. exists (String c a). by rewrite str_app_cons, <- Ha.
Qed.

Lemma endswith_sep_cons c s : s ≠ "" → endswith_sep (String c s) = endswith_sep s.
Proof. by destruct s. Qed.

(** [rstrip] removes a block of separators from the end and leaves a string
    that does not end in one. *)
Lemma rstrip_sep_spec s :
  ∃ k, s = rstrip_sep s +:+ seps k ∧ endswith_sep (rstrip_sep s) = false.
Proof.
  induction s as [|c r (k & Hr & He)]; [by exists 0|].
  simpl. destruct (rstrip_sep r) as [|c' r'] eqn:E.
  - destruct (is_sep c) eqn:Hc.
    + apply is_sep_true in Hc as ->. exists (S k). split; [|done].
      rewrite Hr at 1. done.
    + exists k. split; [|by simpl; rewrite Hc]. rewrite Hr at 1. done.
  - exists k. split.
    + rewrite Hr at 1. done.
    + rewrite endswith_sep_cons; done.
Qed.

Lemma rstrip_sep_all_sep s : all_sep s = true → rstrip_sep s = "".
Proof.
  induction s as [|c r IH]; simpl; [done|].
  intros [Hc Hr]%andb_prop. by rewrite IH, Hc.
Qed.

Lemma rstrip_sep_nonempty s : all_sep s = false → rstrip_sep s ≠ "".
Proof.
  induction s as [|c r IH]; simpl; [done|].
  destruct (rstrip_sep r) eqn:E; [|done].
  destruct (is_sep c) eqn:Hc; [|done]. simpl. intros Hr. by apply IH in Hr.
Qed.

Lemma rstrip_sep_id s : endswith_sep s = false → rstrip_sep s = s.
Proof.
  induction s as [|c r IH]; simpl; [done|].
  destruct r as [|c' r'].
  - intros ->. done.
  - intros He. rewrite IH by done. done.
Qed.

Lemma rstrip_sep_app_seps s k : rstrip_sep (s +:+ seps k) = rstrip_sep s.
Proof.
  induction s as [|c r IH].
  - rewrite str_app_nil_l. apply rstrip_sep_all_sep, all_sep_seps.
  - rewrite str_app_cons. simpl. by rewrite IH.
Qed.

(** *** The last separator *)

Lemma sep_free_app a b : sep_free (a +:+ b) = sep_free a && sep_free b.
Proof.
  induction a as [|c r IH]; [done|]. rewrite str_app_cons; simpl.
  by rewrite IH, andb_assoc.
Qed.

Lemma sep_free_not_startswith s : sep_free s = true → startswith_sep s = false.
Proof. destruct s as [|c r]; simpl; [done|]. intros [Hc _]%andb_prop. by destruct (is_sep c). Qed.

Lemma rfind_sep_free t : sep_free t = true → rfind_sep_succ t = 0.
Proof.
  induction t as [|c r IH]; simpl; [done|].
  intros [Hc Hr]%andb_prop. rewrite IH by done. by destruct (is_sep c).
Qed.

Lemma rfind_app_sep a t :
  sep_free t = true → rfind_sep_succ (a +:+ "/" +:+ t) = S (String.length a).
Proof.
  intros Ht. induction a as [|c r IH].
  - rewrite str_app_nil_l, str_app_cons, str_app_nil_l. simpl. by rewrite rfind_sep_free.
  - rewrite str_app_cons. simpl. by rewrite IH.
Qed.

Lemma rfind_all_sep s : all_sep s = true → rfind_sep_succ s = String.length s.
Proof.
  induction s as [|c r IH]; simpl; [done|].
  intros [Hc Hr]%andb_prop. rewrite IH by done. rewrite Hc. by destruct (String.length r).
Qed.

(** A path is free of separators or has a last one. *)
Lemma last_sep_cases p :
  sep_free p = true ∨ ∃ a t, p = a +:+ "/" +:+ t ∧ sep_free t = true.
Proof.
  induction p as [|c r [Hr|(a & t & -> & Ht)]]; [by left| |].
  - destruct (is_sep c) eqn:Hc.
    + right. exists "", r. apply is_sep_true in Hc as ->. done.
    + left. simpl. by rewrite Hc, Hr.
  - right. by exists (String c a), t.
Qed.

Lemma slice_to_app a s : slice_to (String.length a) (a +:+ s) = a.
Proof.
  induction a as [|c r IH]; [by destruct s|]. rewrite str_app_cons. simpl. by rewrite IH.
Qed.

Lemma slice_from_app a s : slice_from (String.length a) (a +:+ s) = s.
Proof.
  induction a as [|c r IH]; [by destruct s|]. rewrite str_app_cons. simpl. by rewrite IH.
Qed.

Lemma slice_to_all s : slice_to (String.length s) s = s.
Proof. rewrite <- (str_app_nil_r s) at 2. apply slice_to_app. Qed.

Lemma slice_from_all s : slice_from (String.length s) s = "".
Proof. rewrite <- (str_app_nil_r s) at 2. apply slice_from_app. Qed.

(** *** [split] and [dirname] *)

Lemma dirname_split p : dirname p = fst (split p).
Proof. done. Qed.

Lemma split_sep_free p : sep_free p = true → split p = ("", p).
Proof. intros H. unfold split. rewrite rfind_sep_free by done. by destruct p. Qed.

Lemma split_app_sep a t :
  sep_free t = true →
  split (a +:+ "/" +:+ t) = (if all_sep a then a +:+ "/" else rstrip_sep a, t).
Proof.
  intros Ht. unfold split. rewrite rfind_app_sep by done.
  replace (S (String.length a)) with (String.length (a +:+ "/"))
    by (rewrite str_app_length; simpl; lia).
  rewrite <- str_app_assoc, slice_to_app, slice_from_app.
  rewrite all_sep_app. simpl. rewrite andb_true_r.
  assert (nonempty (a +:+ "/") = true) as -> by by destruct a.
  destruct (all_sep a); simpl; [done|].
  f_equal. apply (rstrip_sep_app_seps a 1).
Qed.

Lemma split_all_sep p : all_sep p = true → split p = (p, "").
Proof.
  intros H. unfold split. rewrite rfind_all_sep by done.
  rewrite slice_to_all, slice_from_all, H. simpl. by rewrite andb_false_r.
Qed.

Lemma split_tail_sep_free p h t : split p = (h, t) → sep_free t = true.
Proof.
  destruct (last_sep_cases p) as [Hp|(a & t' & -> & Ht')].
  - rewrite split_sep_free by done. by intros [= <- <-].
  - rewrite split_app_sep by done. by intros [= <- <-].
Qed.

Lemma split_head_stripped p h t : split p = (h, t) → stripped h.
Proof.
  destruct (last_sep_cases p) as [Hp|(a & t' & -> & Ht')].
  - rewrite split_sep_free by done. intros [= <- <-]. by left.
  - rewrite split_app_sep by done. intros [= <- <-].
    destruct (all_sep a) eqn:Ha.
    + left. rewrite all_sep_app, Ha. done.
    + right. by destruct (rstrip_sep_spec a) as (k & _ & He).
Qed.

Lemma all_sep_endswith s : all_sep s = true → s ≠ "" → endswith_sep s = true.
Proof.
  induction s as [|c r IH]; simpl; [done|].
  intros [Hc Hr]%andb_prop _. destruct r; [done|]. by apply IH.
Qed.

Lemma split_tail_nonempty p h t :
  split p = (h, t) → all_sep p = false → endswith_sep p = false → t ≠ "".
Proof.
  destruct (last_sep_cases p) as [Hp|(a & t' & -> & Ht')].
  - rewrite split_sep_free by done. intros [= <- <-] Hall _ ->. done.
  - rewrite split_app_sep by done. intros [= <- <-] _ He ->.
    by rewrite endswith_sep_app_sep in He.
Qed.

Lemma split_head_empty p t : split p = ("", t) → p = t.
Proof.
  destruct (last_sep_cases p) as [Hp|(a & t' & -> & Ht')].
  - rewrite split_sep_free by done. by intros [= <-].
  - rewrite split_app_sep by done. destruct (all_sep a) eqn:Ha; intros [= He <-].
    + by destruct a.
    + by apply rstrip_sep_nonempty in Ha.
Qed.

Lemma startswith_sep_app a b : a ≠ "" → startswith_sep (a +:+ b) = startswith_sep a.
Proof. by destruct a. Qed.

Lemma startswith_sep_rstrip s : all_sep s = false → startswith_sep (rstrip_sep s) = startswith_sep s.
Proof.
  intros Ha. destruct (rstrip_sep_spec s) as (k & Hs & _).
  rewrite Hs at 2. rewrite startswith_sep_app; [done|]. by apply rstrip_sep_nonempty.
Qed.

Lemma split_head_startswith p h t :
  split p = (h, t) → h ≠ "" → startswith_sep p = startswith_sep h.
Proof.
  destruct (last_sep_cases p) as [Hp|(a & t' & -> & Ht')].
  - rewrite split_sep_free by done. by intros [= <- <-].
  - rewrite split_app_sep by done. intros [= <- <-] Hh.
    destruct (all_sep a) eqn:Ha.
    + rewrite <- str_app_assoc. apply startswith_sep_app. by destruct a.
    + rewrite startswith_sep_rstrip by done. apply startswith_sep_app.
      intros ->. done.
Qed.

(** *** The names of a path *)

Lemma split_sep_nonnil s : split_sep s ≠ [].
Proof.
  destruct s as [|c r]; simpl; [done|].
  destruct (is_sep c); [done|]. by destruct (split_sep r).
Qed.

Lemma split_sep_app_sep a b : split_sep (a +:+ "/" +:+ b) = split_sep a ++ split_sep b.
Proof.
  induction a as [|c r IH]; [done|].
  rewrite str_app_cons. simpl. rewrite IH.
  destruct (is_sep c); [done|].
  pose proof (split_sep_nonnil r). by destruct (split_sep r).
Qed.

Lemma split_sep_sep_free t : sep_free t = true → split_sep t = [t].
Proof.
  induction t as [|c r IH]; simpl; [done|].
  intros [Hc Hr]%andb_prop. rewrite IH by done. by destruct (is_sep c).
Qed.

Lemma components_app_sep a b : components (a +:+ "/" +:+ b) = components a ++ components b.
Proof. unfold components. by rewrite split_sep_app_sep, filter_app. Qed.

Lemma components_empty : components "" = [].
Proof. done. Qed.

Lemma components_sep_free t : sep_free t = true → t ≠ "" → components t = [t].
Proof.
  intros Ht Hne. unfold components. rewrite split_sep_sep_free by done.
  rewrite filter_cons_True by done. done.
Qed.

Lemma components_seps k : components (seps k) = [].
Proof.
  induction k as [|k IH]; [done|].
  change (seps (S k)) with ("" +:+ "/" +:+ seps k).
  by rewrite components_app_sep, IH.
Qed.

Lemma components_app_seps a k : components (a +:+ seps k) = components a.
Proof.
  destruct k as [|k]; [by rewrite str_app_nil_r|].
  change (seps (S k)) with ("/" +:+ seps k).
  by rewrite components_app_sep, components_seps, app_nil_r.
Qed.

Lemma components_app_one_sep a : components (a +:+ "/") = components a.
Proof. apply (components_app_seps a 1). Qed.

Lemma components_rstrip s : components (rstrip_sep s) = components s.
Proof.
  destruct (rstrip_sep_spec s) as (k & Hs & _).
  rewrite Hs at 2. by rewrite components_app_seps.
Qed.

Lemma components_split p h t :
  split p = (h, t) → components p = components h ++ components t.
Proof.
  destruct (last_sep_cases p) as [Hp|(a & t' & -> & Ht')].
  - rewrite split_sep_free by done. by intros [= <- <-].
  - rewrite split_app_sep by done. intros [= <- <-].
    rewrite components_app_sep. f_equal.
    destruct (all_sep a).
    + by rewrite components_app_one_sep.
    + by rewrite components_rstrip.
Qed.

(** *** [join] with a file name that holds no separator *)

Lemma join_sep_free f n :
  sep_free n = true →
  join f n = if negb (nonempty f) || endswith_sep f then f +:+ n else f +:+ "/" +:+ n.
Proof. intros Hn. unfold join. by rewrite sep_free_not_startswith. Qed.

Lemma dirname_join_empty n : sep_free n = true → dirname (join "" n) = "".
Proof.
  intros Hn. rewrite join_sep_free by done. cbn [nonempty negb orb].
  by rewrite dirname_split, str_app_nil_l, split_sep_free.
Qed.

Lemma dirname_join f n :
  sep_free n = true → f ≠ "" → dirname (join f n) = strip f.
Proof.
  intros Hn Hf. rewrite join_sep_free, dirname_split by done.
  assert (nonempty f = true) as -> by by apply nonempty_true.
  rewrite orb_false_l. unfold strip. destruct (endswith_sep f) eqn:He.
  - apply endswith_sep_inv in He as [a ->].
    rewrite str_app_assoc, split_app_sep by done.
    rewrite all_sep_app. cbn [fst]. change (all_sep "/") with true. rewrite andb_true_r.
    destruct (all_sep a); [done|]. symmetry. apply (rstrip_sep_app_seps a 1).
  - rewrite split_app_sep by done. cbn [fst].
    destruct (all_sep f) eqn:Ha; [|done].
    by rewrite all_sep_endswith in He.
Qed.

Lemma components_join f n :
  sep_free n = true → n ≠ "" → components (join f n) = components f ++ [n].
Proof.
  intros Hn Hne. rewrite join_sep_free by done.
  destruct (decide (f = "")) as [->|Hf].
  { cbn [nonempty negb orb]. rewrite str_app_nil_l, components_sep_free by done.
    reflexivity. }
  apply nonempty_true in Hf. rewrite Hf. cbn [negb]. rewrite orb_false_l.
  destruct (endswith_sep f) eqn:He.
  - apply endswith_sep_inv in He as [a ->].
    rewrite str_app_assoc, components_app_sep, (components_sep_free n) by done.
    by rewrite components_app_one_sep.
  - by rewrite components_app_sep, (components_sep_free n).
Qed.

Lemma startswith_sep_join f n :
  sep_free n = true → f ≠ "" → startswith_sep (join f n) = startswith_sep f.
Proof.
  intros Hn Hf. rewrite join_sep_free by done.
  destruct (_ || _); by apply startswith_sep_app.
Qed.

Lemma nonempty_join f n : n ≠ "" → nonempty (join f n) = true.
Proof.
  intros Hn. unfold join. destruct (startswith_sep n); [by apply nonempty_true|].
  destruct (_ || _); destruct f; try done; by apply nonempty_true.
Qed.

Lemma endswith_sep_app_sep_free a n :
  sep_free n = true → n ≠ "" → endswith_sep (a +:+ n) = false.
Proof.
  intros Hn Hne. induction a as [|c r IH].
  - rewrite str_app_nil_l. clear Hne.
    induction n as [|c r IH]; [done|]. simpl in Hn. apply andb_prop in Hn as [Hc Hr].
    simpl. destruct r; [by destruct (is_sep c)|]. by apply IH.
  - rewrite str_app_cons, endswith_sep_cons; [done|]. destruct r; [|done].
    by rewrite str_app_nil_l.
Qed.

Lemma endswith_sep_join f n :
  sep_free n = true → n ≠ "" → endswith_sep (join f n) = false.
Proof.
  intros Hn Hne. rewrite join_sep_free by done.
  destruct (_ || _); [|rewrite <- str_app_assoc]; by apply endswith_sep_app_sep_free.
Qed.

Lemma components_strip f : components (strip f) = components f.
Proof. unfold strip. destruct (all_sep f); [done|]. apply components_rstrip. Qed.

Lemma startswith_sep_strip f : startswith_sep (strip f) = startswith_sep f.
Proof. unfold strip. destruct (all_sep f) eqn:Ha; [done|]. by apply startswith_sep_rstrip. Qed.

Lemma nonempty_strip f : nonempty (strip f) = nonempty f.
Proof.
  unfold strip. destruct (all_sep f) eqn:Ha; [done|].
  apply rstrip_sep_nonempty in Ha. destruct f; [done|]. by apply nonempty_true.
Qed.

Lemma stripped_strip f : stripped (strip f).
Proof.
  unfold strip, stripped. destruct (all_sep f) eqn:Ha; [by left|].
  right. by destruct (rstrip_sep_spec f) as (k & _ & He).
Qed.

End PathFacts.

(** ** Facts about paths as bytes *)

Section ByteFacts.

Import posixpath.

Implicit Types (p h t a b s f n : string) (c : ascii) (fs : FileSystem).

Lemma has_surrogate_cons c s : has_surrogate (String c s) = false → has_surrogate s = false.
Proof. cbn [has_surrogate]. by intros [_ ?]%orb_false_elim. Qed.

(** A path without surrogates is its own encoding. *)
Lemma fsencode_plain p : has_surrogate p = false → fsencode p = Return p.
Proof.
  induction p as [|c r IH]; [done|]. intros H.
  pose proof (has_surrogate_cons _ _ H) as Hr. specialize (IH Hr).
  cbn [has_surrogate] in H. apply orb_false_elim in H as [Hlead _].
  destruct r as [|b [|c' r']]; cbn [fsencode] in *.
  - done.
  - rewrite Hlead. cbn [fsencode] in IH. by rewrite IH.
  - rewrite Hlead. by rewrite IH.
Qed.

Lemma plain_spec p : plain p = true ↔ has_surrogate p = false ∧ has_nul p = false.
Proof. unfold plain. by rewrite andb_true_iff, !negb_true_iff. Qed.

Lemma path_arg_plain p : plain p = true → path_arg p = Return p.
Proof. intros [Hs Hn]%plain_spec. unfold path_arg. by rewrite fsencode_plain, Hn. Qed.

Lemma has_nul_app a b : has_nul (a +:+ b) = has_nul a || has_nul b.
Proof.
  induction a as [|c r IH]; [done|]. rewrite str_app_cons. cbn [has_nul].
  by rewrite IH, orb_assoc.
Qed.

Lemma has_surrogate_app a b :
  has_surrogate (a +:+ b) = false → has_surrogate a = false ∧ has_surrogate b = false.
Proof.
  induction a as [|c r IH]; [by rewrite str_app_nil_l|].
  rewrite str_app_cons. intros H.
  pose proof (has_surrogate_cons _ _ H) as Hr. destruct (IH Hr) as [Ha Hb].
  split; [|done]. cbn [has_surrogate] in *. rewrite Ha, orb_false_r.
  apply orb_false_elim in H as [H _].
  destruct r as [|c' r']; [done|]. by rewrite str_app_cons in H.
Qed.

Lemma plain_app a b : plain (a +:+ b) = true → plain a = true ∧ plain b = true.
Proof.
  rewrite !plain_spec, has_nul_app. intros [[Ha Hb]%has_surrogate_app [? ?]%orb_false_elim].
  done.
Qed.

Lemma plain_rstrip s : plain s = true → plain (rstrip_sep s) = true.
Proof.
  destruct (rstrip_sep_spec s) as (k & Hs & _). intros H. rewrite Hs in H.
  by apply plain_app in H as [? _].
Qed.

Lemma plain_strip f : plain f = true → plain (strip f) = true.
Proof. unfold strip. destruct (all_sep f); [done|]. apply plain_rstrip. Qed.

Lemma plain_split p h t : split p = (h, t) → plain p = true → plain h = true ∧ plain t = true.
Proof.
  destruct (last_sep_cases p) as [Hp|(a & t' & -> & Ht')].
  - rewrite split_sep_free by done. by intros [= <- <-].
  - rewrite split_app_sep by done. intros [= <- <-] H.
    pose proof H as [Ha [_ Ht]%plain_app]%plain_app. split; [|done].
    destruct (all_sep a); [|by apply plain_rstrip].
    rewrite <- str_app_assoc in H. by apply plain_app in H as [? _].
Qed.

Lemma plain_join f n :
  sep_free n = true → plain (join f n) = true → plain f = true ∧ plain n = true.
Proof.
  intros Hn. rewrite join_sep_free by done. destruct (_ || _); intros H.
  - by apply plain_app in H.
  - by apply plain_app in H as [? [_ ?]%plain_app].
Qed.

Lemma rstrip_length s : String.length (rstrip_sep s) ≤ String.length s.
Proof.
  destruct (rstrip_sep_spec s) as (k & Hs & _). rewrite Hs at 2.
  rewrite str_app_length. lia.
Qed.

Lemma strip_length f : String.length (strip f) ≤ String.length f.
Proof. unfold strip. destruct (all_sep f); [done|]. apply rstrip_length. Qed.

Lemma join_length f n : sep_free n = true → String.length f ≤ String.length (join f n).
Proof.
  intros Hn. rewrite join_sep_free by done. destruct (_ || _); rewrite !str_app_length; lia.
Qed.

(** *** Paths that fit the host *)

Lemma path_fits_spec fs p :
  path_fits fs p = true ↔
  plain p = true ∧ String.length p ≤ path_max (host fs)
  ∧ forallb (name_fits fs) (components p) = true.
Proof. unfold path_fits. rewrite !andb_true_iff, Nat.leb_le. tauto. Qed.

Lemma path_fits_host fs fs' p : host fs' = host fs → path_fits fs' p = path_fits fs p.
Proof. intros H. unfold path_fits, name_fits. by rewrite H. Qed.

Lemma permissive_host fs fs' : host fs' = host fs → permissive fs → permissive fs'.
Proof. intros H Hp call. specialize (Hp call). unfold os_refusal in *. by rewrite H. Qed.

Lemma path_fits_strip fs f : path_fits fs f = true → path_fits fs (strip f) = true.
Proof.
  rewrite !path_fits_spec. intros (Hp & Hl & Hc). rewrite components_strip.
  split; [by apply plain_strip|]. split; [|done]. pose proof (strip_length f). lia.
Qed.

(** The path of the file fits only if the folder and the file name do. *)
Lemma path_fits_join fs f n :
  sep_free n = true → n ≠ "" → path_fits fs (join f n) = true →
  path_fits fs f = true ∧ name_fits fs n = true.
Proof.
  intros Hn Hne. rewrite !path_fits_spec, components_join by done.
  rewrite forallb_app. cbn [forallb]. rewrite andb_true_r.
  intros (Hp & Hl & [Hc Hfit]%andb_prop). split; [|done].
  split; [by apply (plain_join f n)|]. split; [|done].
  pose proof (join_length f n Hn). lia.
Qed.

(** The head on which [os.makedirs] recurses fits if the name does. *)
Lemma path_fits_makedirs_split fs name head tail :
  os.makedirs_split name = (head, tail) →
  components name = components head ++ [tail] →
  path_fits fs name = true → path_fits fs head = true ∧ name_fits fs tail = true.
Proof.
  intros Hsplit Hcs. rewrite !path_fits_spec, Hcs, forallb_app. cbn [forallb].
  rewrite andb_true_r. intros (Hp & Hl & [Hc Hfit]%andb_prop). split; [|done].
  unfold os.makedirs_split in Hsplit.
  destruct (split name) as [h t] eqn:E1.
  pose proof (split_length _ _ _ E1). pose proof (plain_split _ _ _ E1 Hp) as [Hh _].
  destruct (nonempty t).
  - injection Hsplit as <- <-. split; [done|]. split; [lia|done].
  - pose proof (split_length _ _ _ Hsplit). pose proof (plain_split _ _ _ Hsplit Hh) as [? _].
    split; [done|]. split; [lia|done].
Qed.

End ByteFacts.

(** ** Facts about the file system *)

Section FileSystemFacts.

Implicit Types (fs : FileSystem) (l cur up : loc) (cs : list string) (c p name : string).

Lemma node_at_put fs l n l' :
  l ≠ [] → node_at (put_node l n fs) l' = if decide (l' = l) then Some n else node_at fs l'.
Proof.
  intros Hl. destruct l' as [|c' up']; simpl.
  - by case_decide; subst.
  - case_decide; subst.
    + by rewrite lookup_insert_eq.
    + by rewrite lookup_insert_ne.
Qed.

Lemma loc_neq_child up c : up ≠ c :: up.
Proof. intros H. apply (f_equal length) in H. simpl in H. lia. Qed.

Lemma node_at_absent_nonroot fs l : node_at fs l = None → l ≠ [].
Proof. by destruct l. Qed.

Lemma fs_wf_parent fs c up n :
  fs_wf fs → node_at fs (c :: up) = Some n → node_at fs up = Some Dir.
Proof. intros Hwf H. by apply (Hwf (c :: up) n). Qed.

Lemma fs_wf_put fs c up n :
  fs_wf fs → node_at fs up = Some Dir → node_at fs (c :: up) ≠ Some Dir →
  fs_wf (put_node (c :: up) n fs).
Proof.
  intros Hwf Hup Hnd. unfold fs_wf. simpl.
  apply map_Forall_insert_2.
  - rewrite node_at_put by done. case_decide as Heq; [|done].
    by destruct (loc_neq_child up c).
  - intros [|c' up'] n' Hl'; [done|].
    rewrite node_at_put by done.
    case_decide as Heq; [subst|by apply (Hwf (c' :: up') n')].
    by destruct Hnd; apply (Hwf (c' :: c :: up) n').
Qed.

(** *** Walks *)

Lemma visited_snoc cur cs c :
  visited cur (cs ++ [c]) = visited cur cs ++ [move (destination cur cs) c].
Proof. revert cur; induction cs as [|c' cs IH]; intros cur; simpl; [done|]. by rewrite IH. Qed.

Lemma destination_snoc cur cs c :
  destination cur (cs ++ [c]) = move (destination cur cs) c.
Proof. unfold destination. by rewrite foldl_app. Qed.

Lemma destination_visited cur cs : destination cur cs ∈ visited cur cs.
Proof.
  revert cur; induction cs as [|c cs IH]; intros cur; simpl.
  - apply list_elem_of_here.
  - apply list_elem_of_further, IH.
Qed.

Lemma walk_app fs cur cs1 cs2 :
  walk fs cur (cs1 ++ cs2)
  = match walk fs cur cs1 with
    | Return l => walk fs l cs2
    | Raise e => Raise e
    end.
Proof.
  revert cur; induction cs1 as [|c cs1 IH]; intros cur; simpl; [done|].
  destruct (step fs cur c); [apply IH|done].
Qed.

Lemma step_dir fs cur c :
  node_at fs cur = Some Dir → name_fits fs c = true → step fs cur c = Return (move cur c).
Proof. intros H Hc. unfold step. by rewrite H, Hc. Qed.

Lemma step_Return fs cur c l :
  step fs cur c = Return l →
  node_at fs cur = Some Dir ∧ name_fits fs c = true ∧ l = move cur c.
Proof.
  unfold step. destruct (node_at fs cur) as [[|?]|]; [|done..].
  destruct (name_fits fs c); naive_solver.
Qed.

(** A walk through directories arrives, when the names are not too long. *)
Lemma walk_dirs fs cur cs :
  forallb (name_fits fs) cs = true →
  (∀ l, l ∈ visited cur cs → node_at fs l = Some Dir) →
  walk fs cur cs = Return (destination cur cs).
Proof.
  revert cur; induction cs as [|c cs IH]; intros cur Hfit H; simpl; [done|].
  cbn [forallb] in Hfit. apply andb_prop in Hfit as [Hc Hfit].
  rewrite step_dir; [|apply H; simpl; apply list_elem_of_here|done].
  apply IH; [done|]. intros l Hl. apply H. simpl. by apply list_elem_of_further.
Qed.

(** A walk that arrives at a directory passed directories only. *)
Lemma walk_Return fs cur cs l :
  walk fs cur cs = Return l → node_at fs l = Some Dir →
  l = destination cur cs ∧ ∀ l', l' ∈ visited cur cs → node_at fs l' = Some Dir.
Proof.
  revert cur; induction cs as [|c cs IH]; intros cur; simpl.
  - intros [= ->] Hd. split; [done|]. by intros l' ->%list_elem_of_singleton.
  - destruct (step fs cur c) as [next|] eqn:Hs; [|done].
    apply step_Return in Hs as (Hcur & _ & ->). intros Hw Hd.
    destruct (IH _ Hw Hd) as [-> Hall]. split; [done|].
    intros l' [->|Hl']%elem_of_cons; auto.
Qed.

(** *** Paths *)

Lemma resolve_walk fs p :
  p ≠ "" → String.length p ≤ path_max (host fs) →
  resolve fs p = walk fs (start fs p) (posixpath.components p).
Proof.
  intros Hp Hl. unfold resolve. apply nonempty_true in Hp as ->.
  by apply Nat.leb_le in Hl as ->.
Qed.

Lemma resolve_Return fs p l :
  resolve fs p = Return l →
  p ≠ "" ∧ walk fs (start fs p) (posixpath.components p) = Return l.
Proof.
  unfold resolve. destruct (posixpath.nonempty p) eqn:Hp; [|done].
  apply nonempty_true in Hp. by destruct (_ <=? _).
Qed.

(** A plain path is located where it resolves, when nothing is refused. *)
Lemma locate_plain fs call p :
  permissive fs → plain p = true → locate fs call p = resolve fs p.
Proof.
  intros Hperm Hp. unfold locate. rewrite path_arg_plain by done.
  rewrite Hperm. unfold resolve. by destruct (posixpath.nonempty p).
Qed.

Lemma lookup_plain fs p : plain p = true → lookup fs p = resolve fs p.
Proof. intros Hp. unfold lookup. by rewrite path_arg_plain. Qed.

Lemma lookup_Return fs p l :
  lookup fs p = Return l → ∃ b, path_arg p = Return b ∧ resolve fs b = Return l.
Proof. unfold lookup. destruct (path_arg p) as [b|]; [|done]. intros H. by exists b. Qed.

(** A path is located only where it names a location. *)
Lemma locate_lookup fs call p l : locate fs call p = Return l → lookup fs p = Return l.
Proof.
  unfold locate, lookup. destruct (path_arg p) as [b|]; [|done].
  destruct (posixpath.nonempty b); [|done].
  by destruct (os_refusal fs (call b)).
Qed.

Lemma locate_Return fs call p l :
  locate fs call p = Return l → ∃ b, path_arg p = Return b ∧ resolve fs b = Return l.
Proof. intros H. by apply lookup_Return, (locate_lookup _ call). Qed.

Lemma path_isdir_dir fs p l :
  permissive fs → plain p = true →
  resolve fs p = Return l → node_at fs l = Some Dir → os.path_isdir fs p = true.
Proof.
  intros Hperm Hp Hr Hd. unfold os.path_isdir, stat, node_of.
  by rewrite locate_plain, Hr, Hd.
Qed.

Lemma path_exists_inv fs p :
  plain p = true → os.path_exists fs p = true →
  ∃ l n, resolve fs p = Return l ∧ node_at fs l = Some n.
Proof.
  intros Hp. unfold os.path_exists, stat, node_of.
  destruct (locate fs SysStat p) as [l|] eqn:Hl; [|done].
  apply locate_Return in Hl as (b & Hb & Hr).
  rewrite path_arg_plain in Hb by done. injection Hb as <-.
  destruct (node_at fs l) as [n|] eqn:Hn; [|by simpl]. intros _. by exists l, n.
Qed.

Lemma mkdir_tolerant_new fs name l :
  permissive fs → plain name = true →
  resolve fs name = Return l → node_at fs l = None →
  os.mkdir_tolerant name true fs = (Return (), put_node l Dir fs).
Proof.
  intros Hperm Hp Hr Hn. unfold os.mkdir_tolerant, try_except, os.mkdir.
  by rewrite locate_plain, Hr, Hn.
Qed.

Lemma mkdir_tolerant_dir fs name l :
  permissive fs → plain name = true →
  resolve fs name = Return l → node_at fs l = Some Dir →
  os.mkdir_tolerant name true fs = (Return (), fs).
Proof.
  intros Hperm Hp Hr Hd. unfold os.mkdir_tolerant, try_except, os.mkdir.
  rewrite locate_plain, Hr, Hd by done. simpl.
  by rewrite (path_isdir_dir _ _ _ Hperm Hp Hr Hd).
Qed.

(** *** Directories made on a way *)

Lemma made_refl fs ls :
  fs_wf fs → (∀ l, l ∈ ls → node_at fs l = Some Dir) → made fs fs ls.
Proof. by intros Hwf Hls. Qed.

Lemma made_host fs fs' ls : made fs fs' ls → host fs' = host fs.
Proof. by intros (_ & Hhost & _). Qed.

Lemma made_more fs fs' ls l :
  made fs fs' ls → node_at fs' l = Some Dir → made fs fs' (ls ++ [l]).
Proof.
  intros (Hcwd & Hhost & Hwf & Hin & Hout) Hl. repeat split; [done..| |].
  - intros l' [Hl'| ->%list_elem_of_singleton]%elem_of_app; auto.
  - intros l' [Hl' _]%not_elem_of_app. auto.
Qed.

Lemma made_put fs fs' ls c up :
  made fs fs' ls → node_at fs' (c :: up) = None → node_at fs' up = Some Dir →
  made fs (put_node (c :: up) Dir fs') (ls ++ [c :: up]).
Proof.
  intros (Hcwd & Hhost & Hwf & Hin & Hout) Hl Hup. repeat split; [done|done| | |].
  - apply fs_wf_put; [done..|]. by rewrite Hl.
  - intros l' Hl'. rewrite node_at_put by done. case_decide; [done|].
    apply elem_of_app in Hl' as [Hl'| ->%list_elem_of_singleton]; auto. done.
  - intros l' [Hl' Hne%not_elem_of_cons]%not_elem_of_app.
    rewrite node_at_put by done. case_decide; [by destruct Hne|]. auto.
Qed.

Lemma made_same fs fs' ls ls' :
  made fs fs' ls → (∀ l, l ∈ ls ↔ l ∈ ls') → made fs fs' ls'.
Proof.
  intros (Hcwd & Hhost & Hwf & Hin & Hout) Heq. repeat split; [done..| |].
  - intros l Hl. by apply Hin, Heq.
  - intros l Hl. apply Hout. by rewrite Heq.
Qed.

Lemma made_start fs fs' ls p : made fs fs' ls → start fs' p = start fs p.
Proof. intros (Hcwd & _). unfold start. by rewrite Hcwd. Qed.

(** Where [..] leads from a directory there is a directory. *)
Lemma move_absent fs cur c :
  fs_wf fs → node_at fs cur = Some Dir → node_at fs (move cur c) = None →
  move cur c = c :: cur.
Proof.
  intros Hwf Hcur. unfold move. repeat case_bool_decide; [congruence| |done].
  destruct cur as [|c' up]; simpl; [done|].
  by rewrite (fs_wf_parent _ _ _ _ Hwf Hcur).
Qed.

(** The [mkdir] that ends [os.makedirs], once the directories on the way to
    the parent are there. *)
Lemma mkdir_last fs fs1 name cur cs c :
  permissive fs1 → path_fits fs1 name = true →
  name ≠ "" →
  start fs1 name = cur →
  posixpath.components name = cs ++ [c] →
  made fs fs1 (visited cur cs) →
  absent_or_dir fs1 (move (destination cur cs) c) = true →
  ∃ fs', os.mkdir_tolerant name true fs1 = (Return (), fs')
         ∧ made fs fs' (visited cur (cs ++ [c])).
Proof.
  intros Hperm (Hplain & Hlen & Hfit)%path_fits_spec Hne Hstart Hcs Hmade Hl.
  pose proof Hmade as (Hcwd & Hhost & Hwf & Hin & Hout).
  assert (node_at fs1 (destination cur cs) = Some Dir) as Hparent
    by apply Hin, destination_visited.
  rewrite Hcs, forallb_app in Hfit. cbn [forallb] in Hfit.
  apply andb_prop in Hfit as [Hfit [Hc _]%andb_prop].
  assert (resolve fs1 name = Return (move (destination cur cs) c)) as Hres.
  { rewrite resolve_walk, Hstart, Hcs, walk_app, (walk_dirs _ _ _ Hfit Hin) by done.
    simpl. by rewrite step_dir. }
  rewrite visited_snoc. unfold absent_or_dir in Hl.
  destruct (node_at fs1 (move (destination cur cs) c)) as [[|?]|] eqn:Hnode; [|done|].
  - exists fs1. split; [by eapply mkdir_tolerant_dir|]. by apply made_more.
  - rewrite (mkdir_tolerant_new _ _ _ Hperm Hplain Hres Hnode).
    pose proof (move_absent _ _ _ Hwf Hparent Hnode) as Hmove.
    rewrite Hmove in Hnode |- *.
    eexists; split; [done|]. apply made_put; assumption.
Qed.

Lemma walk_destination fs cur cs l : walk fs cur cs = Return l → l = destination cur cs.
Proof.
  revert cur; induction cs as [|c cs IH]; intros cur; simpl; [by intros [= ->]|].
  destruct (step fs cur c) as [next|] eqn:Hs; [|done].
  apply step_Return in Hs as (_ & _ & ->). apply IH.
Qed.

Lemma is_dir_true fs l : is_dir fs l = true ↔ node_at fs l = Some Dir.
Proof. unfold is_dir. destruct (node_at fs l) as [[|?]|]; naive_solver. Qed.

Lemma clear_way_spec fs p :
  clear_way fs p = true ↔
  node_at fs (start fs p) = Some Dir ∧ ∀ l, l ∈ way fs p → absent_or_dir fs l = true.
Proof.
  unfold clear_way. rewrite andb_true_iff, is_dir_true, forallb_forall.
  by setoid_rewrite list_elem_of_In.
Qed.

(** How [os.makedirs] splits a stripped name. *)
Lemma makedirs_split_stripped name head tail :
  posixpath.stripped name → name ≠ "" → os.makedirs_split name = (head, tail) →
  (posixpath.all_sep name = true ∧ tail = "")
  ∨ (tail ≠ "" ∧ posixpath.stripped head
     ∧ posixpath.components name = posixpath.components head ++ [tail]
     ∧ ∀ fs, start fs name = start fs head ∨ (head = "" ∧ start fs name = cwd fs)).
Proof.
  intros Hstripped Hne. unfold os.makedirs_split.
  destruct (posixpath.split name) as [h t] eqn:Hsplit.
  destruct (posixpath.all_sep name) eqn:Hall.
  - rewrite split_all_sep in Hsplit by done. injection Hsplit as <- <-.
    simpl. rewrite split_all_sep by done. intros [= <- <-]. by left.
  - destruct Hstripped as [?|Hend]; [congruence|].
    pose proof (split_tail_nonempty _ _ _ Hsplit Hall Hend) as Ht.
    apply nonempty_true in Ht as Ht'. rewrite Ht'. intros [= <- <-]. right.
    pose proof (split_tail_sep_free _ _ _ Hsplit) as Hfree.
    split; [done|]. split; [by eapply split_head_stripped|]. split.
    + by rewrite (components_split _ _ _ Hsplit), (components_sep_free t).
    + intros fs. unfold start. destruct (decide (h = "")) as [->|Hh].
      * right. split; [done|]. apply split_head_empty in Hsplit as ->.
        by rewrite sep_free_not_startswith.
      * left. by rewrite (split_head_startswith _ _ _ Hsplit Hh).
Qed.

(** [os.makedirs] on a clear way makes every directory on it, on a host
    that refuses nothing and has room for the path. *)
Lemma makedirs_at_ok depth name fs :
  fs_wf fs → permissive fs → path_fits fs name = true →
  depth + length (posixpath.components name) ≤ recursion_room (host fs) →
  posixpath.stripped name → name ≠ "" → clear_way fs name = true →
  ∃ fs', os.makedirs_at depth name true fs = (Return (), fs') ∧ made fs fs' (way fs name).
Proof.
  cut (∀ exist_ok, exist_ok = true →
         fs_wf fs → permissive fs → path_fits fs name = true →
         depth + length (posixpath.components name) ≤ recursion_room (host fs) →
         posixpath.stripped name → name ≠ "" → clear_way fs name = true →
         ∃ fs', os.makedirs_at depth name exist_ok fs = (Return (), fs')
                ∧ made fs fs' (way fs name)).
  { intros H. by apply H. }
  intros exist_ok.
  apply (os.makedirs_at_elim
    (λ depth name exist_ok fs r, exist_ok = true →
       fs_wf fs → permissive fs → path_fits fs name = true →
       depth + length (posixpath.components name) ≤ recursion_room (host fs) →
       posixpath.stripped name → name ≠ "" → clear_way fs name = true →
       ∃ fs', r = (Return (), fs') ∧ made fs fs' (way fs name)));
    clear depth name fs exist_ok.
  - (* the parent is there, or the name has no parent *)
    intros depth name head tail Hsplit exist_ok fs Hcond _ _ ->
      Hwf Hperm Hfits Hroom Hstripped Hne Hclear.
    apply clear_way_spec in Hclear as [Hdir Hway].
    destruct (makedirs_split_stripped _ _ _ Hstripped Hne Hsplit)
      as [[Hall ->]|(Htail & Hstripped' & Hcs & Hstart)].
    + exists fs. unfold way in *.
      assert (posixpath.components name = []) as Hnil.
      { rewrite (all_sep_inv _ Hall). apply components_seps. }
      assert (start fs name = []) as Hroot.
      { unfold start. destruct name as [|c r]; [done|]. simpl in *.
        by apply andb_prop in Hall as [-> _]. }
      apply path_fits_spec in Hfits as (Hplain & Hlen & _).
      rewrite Hnil, Hroot in *. split.
      * apply (mkdir_tolerant_dir _ _ []); [done|done| |done].
        by rewrite resolve_walk, Hnil, Hroot.
      * apply made_refl; [done|]. by intros l ->%list_elem_of_singleton.
    + destruct (path_fits_makedirs_split _ _ _ _ Hsplit Hcs Hfits) as [Hfits' Htailfit].
      unfold way in *. rewrite Hcs in *.
      apply (mkdir_last fs fs); [done|done|done|done|done| |].
      * apply made_refl; [done|].
        destruct (decide (head = "")) as [->|Hhead].
        { intros l ->%list_elem_of_singleton. done. }
        destruct (Hstart fs) as [Hstart'|[? _]]; [|done]. rewrite Hstart' in *.
        apply nonempty_true in Hhead as Hh, Htail as Ht.
        rewrite Hh, Ht in Hcond. simpl in Hcond. apply negb_false_iff in Hcond.
        apply path_fits_spec in Hfits' as (Hplain' & _ & _).
        apply path_exists_inv in Hcond as (lh & n & Hres & Hn); [|done].
        apply resolve_Return in Hres as [_ Hres].
        pose proof (walk_destination _ _ _ _ Hres) as ->.
        apply (walk_Return _ _ _ _ Hres).
        assert (absent_or_dir fs (destination (start fs head) (posixpath.components head)) = true)
          as Hd.
        { apply Hway. rewrite visited_snoc, elem_of_app. left. apply destination_visited. }
        unfold absent_or_dir in Hd. rewrite Hn in Hd. by destruct n.
      * apply Hway. rewrite visited_snoc, elem_of_app, list_elem_of_singleton. by right.
  - (* the parent is made first *)
    intros depth name head tail Hsplit exist_ok fs _ Hcond IH _ _ _ ->
      Hwf Hperm Hfits Hroom Hstripped Hne Hclear.
    apply andb_prop in Hcond as [[Hhead Htail]%andb_prop Hexists].
    apply nonempty_true in Hhead, Htail.
    destruct (makedirs_split_stripped _ _ _ Hstripped Hne Hsplit)
      as [[_ ->]|(_ & Hstripped' & Hcs & Hstart)]; [done|].
    destruct (path_fits_makedirs_split _ _ _ _ Hsplit Hcs Hfits) as [Hfits' Htailfit].
    destruct (Hstart fs) as [Hstart'|[-> _]]; [|done].
    apply clear_way_spec in Hclear as [Hdir Hway].
    unfold way in *. rewrite Hcs, Hstart' in *.
    rewrite length_app in Hroom. simpl in Hroom.
    destruct IH as (fs1 & -> & Hmade); [done..|lia|done|done| |].
    { apply clear_way_spec. split; [done|]. intros l Hl. apply Hway.
      rewrite visited_snoc. apply elem_of_app. by left. }
    pose proof (made_host _ _ _ Hmade) as Hhost.
    case_bool_decide as Hdot.
    + exists fs1. split; [done|]. subst tail. eapply made_same; [done|].
      intros l. rewrite visited_snoc, elem_of_app, list_elem_of_singleton.
      unfold move. simpl. split; [auto|]. intros [?| ->]; [done|].
      apply destination_visited.
    + apply mkdir_last; [by eapply permissive_host|by rewrite (path_fits_host _ _ _ Hhost)
                        |done| |done|done|].
      { by rewrite (made_start _ _ _ _ Hmade). }
      destruct Hmade as (_ & _ & _ & Hin & Hout).
      destruct (decide (move (destination (start fs head) (posixpath.components head)) tail
                        ∈ visited (start fs head) (posixpath.components head))) as [Hl|Hl].
      * unfold absent_or_dir. by rewrite (Hin _ Hl).
      * unfold absent_or_dir. rewrite (Hout _ Hl). apply Hway.
        rewrite visited_snoc, elem_of_app, list_elem_of_singleton. by right.
  - (* no room for the recursive call *)
    intros depth name head tail Hsplit exist_ok fs Hroom Hcond _ _ _ ->
      Hwf Hperm Hfits Hdepth Hstripped Hne Hclear.
    apply andb_prop in Hcond as [[Hhead Htail]%andb_prop Hexists].
    apply nonempty_true in Htail.
    destruct (makedirs_split_stripped _ _ _ Hstripped Hne Hsplit)
      as [[_ ->]|(_ & _ & Hcs & _)]; [done|].
    rewrite Hcs, length_app in Hdepth. simpl in Hdepth.
    apply bool_decide_eq_false in Hroom. lia.
Qed.

Lemma makedirs_ok name fs :
  fs_wf fs → permissive fs → path_fits fs name = true →
  length (posixpath.components name) ≤ recursion_room (host fs) →
  posixpath.stripped name → name ≠ "" → clear_way fs name = true →
  ∃ fs', os.makedirs name true fs = (Return (), fs') ∧ made fs fs' (way fs name).
Proof. intros. by apply makedirs_at_ok. Qed.

End FileSystemFacts.

(** ** Facts about [export_verdict_to_txt] *)

Section ExportFacts.

Implicit Types (fs : FileSystem) (f n t : string) (ctx : ToolContext).

Lemma file_name_ok_spec n :
  file_name_ok n = true ↔ posixpath.sep_free n = true ∧ n ≠ "" ∧ n ≠ "." ∧ n ≠ "..".
Proof.
  unfold file_name_ok. rewrite !andb_true_iff, !negb_true_iff, !bool_decide_eq_false.
  rewrite nonempty_true. tauto.
Qed.

Lemma move_name cur n : n ≠ "." → n ≠ ".." → move cur n = n :: cur.
Proof. intros H1 H2. unfold move. by rewrite !bool_decide_eq_false_2. Qed.

Lemma way_strip fs f : way fs (posixpath.strip f) = way fs f.
Proof. unfold way, start. by rewrite components_strip, startswith_sep_strip. Qed.

Lemma clear_way_strip fs f : clear_way fs (posixpath.strip f) = clear_way fs f.
Proof. unfold clear_way. rewrite way_strip. unfold start. by rewrite startswith_sep_strip. Qed.

Lemma target_way fs p : target fs p ∈ way fs p.
Proof. apply destination_visited. Qed.

(** With the directories on the way to [f] in place, [f] and the file in it
    resolve. *)
Lemma resolve_folder fs f :
  f ≠ "" → path_fits fs f = true → (∀ l, l ∈ way fs f → node_at fs l = Some Dir) →
  resolve fs f = Return (target fs f).
Proof.
  intros Hf (_ & Hlen & Hfit)%path_fits_spec Hdirs.
  rewrite resolve_walk by done. by apply walk_dirs.
Qed.

Lemma resolve_file fs f n :
  f ≠ "" → file_name_ok n = true → path_fits fs (posixpath.join f n) = true →
  (∀ l, l ∈ way fs f → node_at fs l = Some Dir) →
  resolve fs (posixpath.join f n) = Return (n :: target fs f).
Proof.
  intros Hf (Hfree & Hn & Hdot & Hdots)%file_name_ok_spec Hfits Hdirs.
  destruct (path_fits_join _ _ _ Hfree Hn Hfits) as [(_ & _ & Hfit)%path_fits_spec Hnfit].
  apply path_fits_spec in Hfits as (_ & Hlen & _).
  assert (start fs (posixpath.join f n) = start fs f) as Hstart.
  { unfold start. by rewrite startswith_sep_join. }
  rewrite resolve_walk; [|by apply nonempty_true, nonempty_join|done].
  rewrite Hstart, components_join by done.
  rewrite walk_app, (walk_dirs _ _ _ Hfit Hdirs). simpl.
  rewrite step_dir; [by rewrite move_name|apply Hdirs, target_way|done].
Qed.

Lemma within_limits_spec fs f n :
  within_limits fs f n = true ↔
  path_fits fs (posixpath.join f n) = true
  ∧ length (posixpath.components f) ≤ recursion_room (host fs).
Proof. unfold within_limits. by rewrite andb_true_iff, Nat.leb_le. Qed.

Lemma within_limits_host fs fs' f n :
  host fs' = host fs → within_limits fs' f n = within_limits fs f n.
Proof. intros H. unfold within_limits. by rewrite (path_fits_host _ _ _ H), H. Qed.

Lemma put_node_host l x fs : host (put_node l x fs) = host fs.
Proof. done. Qed.

(** A write that nothing hinders puts the text at the end of the file. *)
Lemma file_write_ok fs l c t :
  permissive fs → encodable t = true → node_at fs l = Some (File c) →
  file_write l t fs = (Return (), put_node l (File (c +:+ t)) fs).
Proof.
  intros Hperm Ht%negb_true_iff Hl. unfold file_write, utf8_encode, append.
  by rewrite Ht, Hperm, Hl.
Qed.

(** One call of the tool on a clear way and a free slot. *)
Lemma export_ok ctx fs f n t :
  fs_wf fs → permissive fs → f ≠ "" → file_name_ok n = true →
  within_limits fs f n = true → encodable t = true →
  clear_way fs f = true → slot_free fs f n = true →
  ∃ fs', export_verdict_to_txt ctx f n t fs = (Return status_success, fs')
    ∧ fs_wf fs' ∧ cwd fs' = cwd fs ∧ host fs' = host fs
    ∧ (∀ l, l ∈ way fs f → node_at fs' l = Some Dir)
    ∧ node_at fs' (n :: target fs f) = Some (File t)
    ∧ (∀ l, l ∉ way fs f → l ≠ n :: target fs f → node_at fs' l = node_at fs l).
Proof.
  intros Hwf Hperm Hf Hn [Hfits Hroom]%within_limits_spec Ht Hclear Hslot.
  pose proof Hn as (Hfree & Hne & Hdot & Hdots)%file_name_ok_spec.
  apply andb_prop in Hslot as [Hnodir%negb_true_iff Hoff%negb_true_iff].
  apply bool_decide_eq_false in Hoff.
  destruct (path_fits_join _ _ _ Hfree Hne Hfits) as [Hffits _].
  destruct (makedirs_ok (posixpath.strip f) fs) as (fs1 & Hmk & Hmade);
    [done|done| | | | | |].
  { by apply path_fits_strip. }
  { by rewrite components_strip. }
  { apply stripped_strip. }
  { apply nonempty_true. rewrite nonempty_strip. by apply nonempty_true. }
  { by rewrite clear_way_strip. }
  rewrite way_strip in Hmade. destruct Hmade as (Hcwd & Hhost & Hwf1 & Hin & Hout).
  pose proof (permissive_host _ _ Hhost Hperm) as Hperm1.
  assert (way fs1 f = way fs f) as Hway by (unfold way, start; by rewrite Hcwd).
  assert (target fs1 f = target fs f) as Htarget by (unfold target, start; by rewrite Hcwd).
  assert (resolve fs1 (posixpath.join f n) = Return (n :: target fs f)) as Hres.
  { rewrite <- Htarget. apply resolve_file; [done|done| |].
    - by rewrite (path_fits_host _ _ _ Hhost).
    - by rewrite Hway. }
  assert (node_at fs1 (n :: target fs f) ≠ Some Dir) as Hslot1.
  { rewrite Hout by done. unfold is_dir in Hnodir.
    by destruct (node_at fs (n :: target fs f)) as [[|?]|]. }
  assert (node_at fs1 (target fs f) = Some Dir) as Hparent by apply Hin, target_way.
  set (l := n :: target fs f) in *.
  exists (put_node l (File t) (put_node l (File "") fs1)).
  assert (export_verdict_to_txt ctx f n t fs
          = (Return status_success, put_node l (File t) (put_node l (File "") fs1))) as ->.
  { unfold export_verdict_to_txt, mbind, io_bind, mret, io_ret.
    rewrite dirname_join, Hmk by done.
    unfold open_w. rewrite locate_plain, Hres, endswith_sep_join; [|done..| ].
    2: { by apply path_fits_spec in Hfits as (? & _). }
    assert (file_write l t (put_node l (File "") fs1)
            = (Return (), put_node l (File t) (put_node l (File "") fs1))) as Hwrite.
    { rewrite (file_write_ok _ l "" t); [done| |done|].
      - by apply (permissive_host fs1).
      - rewrite node_at_put by done. by rewrite decide_True. }
    destruct (node_at fs1 l) as [[|?]|]; [done|by rewrite Hwrite..]. }
  assert (fs_wf (put_node l (File "") fs1)) as Hwf2 by by apply fs_wf_put.
  split; [done|]. split.
  { apply fs_wf_put; [done| |].
    - rewrite node_at_put by done. rewrite decide_False; [done|]. apply loc_neq_child.
    - rewrite node_at_put by done. by rewrite decide_True. }
  split; [done|]. split; [done|]. split; [|split].
  - intros l' Hl'. rewrite !node_at_put by done.
    rewrite !decide_False by (intros ->; done). by apply Hin.
  - rewrite node_at_put by done. by rewrite decide_True.
  - intros l' Hl' Hne'. rewrite !node_at_put by done.
    rewrite !decide_False by done. by apply Hout.
Qed.

Lemma read_file_file fs f n t :
  f ≠ "" → file_name_ok n = true → path_fits fs (posixpath.join f n) = true →
  (∀ l, l ∈ way fs f → node_at fs l = Some Dir) →
  node_at fs (n :: target fs f) = Some (File t) →
  read_file fs (posixpath.join f n) = Return t.
Proof.
  intros Hf Hn Hfits Hdirs Hfile.
  pose proof Hn as (Hfree & Hne & _)%file_name_ok_spec.
  unfold read_file, node_of. rewrite lookup_plain.
  - by rewrite (resolve_file _ _ _ Hf Hn Hfits Hdirs), Hfile, endswith_sep_join.
  - by apply path_fits_spec in Hfits as (? & _).
Qed.

Lemma path_isdir_folder fs f :
  permissive fs → f ≠ "" → path_fits fs f = true →
  (∀ l, l ∈ way fs f → node_at fs l = Some Dir) → os.path_isdir fs f = true.
Proof.
  intros Hperm Hf Hfits Hdirs. apply (path_isdir_dir _ _ (target fs f)).
  - done.
  - by apply path_fits_spec in Hfits as (? & _).
  - by apply resolve_folder.
  - apply Hdirs, target_way.
Qed.

(** What one call leaves is again a clear way and a free slot. *)
Lemma export_ok_again fs fs' f n t :
  cwd fs' = cwd fs →
  (∀ l, l ∈ way fs f → node_at fs' l = Some Dir) →
  node_at fs' (n :: target fs f) = Some (File t) →
  slot_free fs f n = true →
  way fs' f = way fs f ∧ target fs' f = target fs f
  ∧ clear_way fs' f = true ∧ slot_free fs' f n = true.
Proof.
  intros Hcwd Hdirs Hfile Hslot.
  assert (way fs' f = way fs f) as Hway by (unfold way, start; by rewrite Hcwd).
  assert (target fs' f = target fs f) as Htarget by (unfold target, start; by rewrite Hcwd).
  split; [done|]. split; [done|]. split.
  - apply clear_way_spec. rewrite Hway. split.
    + assert (start fs' f = start fs f) as -> by (unfold start; by rewrite Hcwd).
      apply Hdirs. unfold way. destruct (posixpath.components f); apply list_elem_of_here.
    + intros l Hl. unfold absent_or_dir. by rewrite (Hdirs _ Hl).
  - unfold slot_free in *. rewrite Hway, Htarget.
    apply andb_prop in Hslot as [_ ->]. rewrite andb_true_r.
    unfold is_dir. by rewrite Hfile.
Qed.

(** [os.makedirs] on the empty path raises and makes nothing. *)
Lemma makedirs_empty fs : os.makedirs "" true fs = (Raise FileNotFoundError, fs).
Proof.
  unfold os.makedirs.
  cut (∀ depth name exist_ok, name = "" → exist_ok = true →
         os.makedirs_at depth name exist_ok fs = (Raise FileNotFoundError, fs)).
  { intros H. by apply H. }
  intros depth name exist_ok.
  apply (os.makedirs_at_elim
    (λ depth name exist_ok fs r,
       name = "" → exist_ok = true → r = (Raise FileNotFoundError, fs)));
    clear depth name exist_ok fs.
  - intros depth name head tail Hsplit exist_ok fs Hcond _ _ -> ->. done.
  - intros depth name head tail Hsplit exist_ok fs _ Hcond _ _ _ _ -> ->.
    injection Hsplit as <- <-. done.
  - intros depth name head tail Hsplit exist_ok fs _ Hcond _ _ _ -> ->.
    injection Hsplit as <- <-. done.
Qed.

(** Without a folder the tool asks for the directory with the empty name. *)
Lemma export_empty_folder ctx fs n t :
  posixpath.sep_free n = true →
  export_verdict_to_txt ctx "" n t fs = (Raise FileNotFoundError, fs).
Proof.
  intros Hn. unfold export_verdict_to_txt, mbind, io_bind.
  by rewrite dirname_join_empty, makedirs_empty.
Qed.

(** The tool returns what its last line returns, or raises what
    [os.makedirs], [open] or [write] raised. *)
Lemma export_cases ctx fs f n t :
  export_verdict_to_txt ctx f n t fs
  = match os.makedirs (posixpath.dirname (posixpath.join f n)) true fs with
    | (Raise e, fs1) => (Raise e, fs1)
    | (Return _, fs1) =>
        match open_w (posixpath.join f n) fs1 with
        | (Raise e, fs2) => (Raise e, fs2)
        | (Return file, fs2) =>
            match file_write file t fs2 with
            | (Raise e, fs3) => (Raise e, fs3)
            | (Return _, fs3) => (Return status_success, fs3)
            end
        end
    end.
Proof.
  unfold export_verdict_to_txt, mbind, io_bind, mret, io_ret.
  destruct (os.makedirs _ true fs) as [[[]|e] fs1]; [|done].
  destruct (open_w _ fs1) as [[file|e] fs2]; [|done].
  by destruct (file_write file t fs2) as [[[]|e] fs3].
Qed.

End ExportFacts.

(** ** What [export_verdict_to_txt] does on every path *)

Section ExportMore.

Implicit Types (fs : FileSystem) (f n t p name : string) (l cur : loc) (ctx : ToolContext).

(** *** What [os.makedirs] and [open] leave untouched *)

Lemma put_node_put l (a b : node) fs : put_node l a (put_node l b fs) = put_node l a fs.
Proof. unfold put_node. simpl. by rewrite insert_insert_eq. Qed.

Lemma adds_dirs_refl fs (P : loc → Prop) : adds_dirs fs fs P.
Proof. split; [done|]. split; [done|]. by left. Qed.

Lemma adds_dirs_trans fs1 fs2 fs3 (P : loc → Prop) :
  adds_dirs fs1 fs2 P → adds_dirs fs2 fs3 P → adds_dirs fs1 fs3 P.
Proof.
  intros (Hc1 & Hh1 & H1) (Hc2 & Hh2 & H2). split; [congruence|]. split; [congruence|].
  intros l.
  destruct (H1 l) as [E1|(E1 & E1' & ?)], (H2 l) as [E2|(E2 & E2' & ?)];
    try (left; congruence).
  - right. split; [congruence|]. split; [congruence|done].
  - right. split; [congruence|]. split; [congruence|done].
Qed.

Lemma adds_dirs_weaken fs fs' (P Q : loc → Prop) :
  (∀ l, P l → Q l) → adds_dirs fs fs' P → adds_dirs fs fs' Q.
Proof.
  intros HPQ (Hc & Hh & H). split; [done|]. split; [done|].
  intros l. destruct (H l) as [?|(? & ? & ?)]; auto.
Qed.

Lemma adds_dirs_put fs l (P : loc → Prop) :
  node_at fs l = None → P l → adds_dirs fs (put_node l Dir fs) P.
Proof.
  intros Hl HP. split; [done|]. split; [done|]. intros l'.
  rewrite node_at_put by by apply (node_at_absent_nonroot fs).
  case_decide; subst; [by right|by left].
Qed.

Lemma resolve_way fs p l : resolve fs p = Return l → l ∈ way fs p.
Proof.
  intros [_ Hw]%resolve_Return. apply walk_destination in Hw as ->.
  apply destination_visited.
Qed.

(** [os.mkdir] adds at most the directory that its path names. *)
Lemma mkdir_adds name fs :
  adds_dirs fs (snd (os.mkdir name fs)) (λ l, plain name = true → l ∈ way fs name).
Proof.
  unfold os.mkdir. destruct (locate fs SysMkdir name) as [l|] eqn:Hloc;
    [|apply adds_dirs_refl].
  destruct (node_at fs l) eqn:Hl; [apply adds_dirs_refl|].
  apply adds_dirs_put; [done|]. intros Hp.
  apply locate_lookup in Hloc. rewrite lookup_plain in Hloc by done.
  by apply resolve_way.
Qed.

Lemma mkdir_tolerant_snd name exist_ok fs :
  snd (os.mkdir_tolerant name exist_ok fs) = snd (os.mkdir name fs).
Proof.
  unfold os.mkdir_tolerant, try_except. destruct (os.mkdir name fs) as [[[]|e] fs']; [done|].
  simpl. destruct (is_OSError e); [|done]. by destruct (_ || _).
Qed.

Lemma visited_app cur cs1 cs2 l : l ∈ visited cur cs1 → l ∈ visited cur (cs1 ++ cs2).
Proof.
  revert cur. induction cs1 as [|c cs1 IH]; intros cur; simpl.
  - intros ->%list_elem_of_singleton. destruct cs2; apply list_elem_of_here.
  - intros [->|Hl]%elem_of_cons; [apply list_elem_of_here|].
    apply list_elem_of_further. by apply IH.
Qed.

(** The way to the head on which [os.makedirs] recurses is the beginning of
    the way to the name. *)
Lemma way_makedirs_split fs name head tail l :
  os.makedirs_split name = (head, tail) → head ≠ "" →
  l ∈ way fs head → l ∈ way fs name.
Proof.
  unfold os.makedirs_split. destruct (posixpath.split name) as [h t] eqn:E1.
  assert (∀ p h' t', posixpath.split p = (h', t') → h' ≠ "" →
            l ∈ way fs h' → l ∈ way fs p) as Hone.
  { intros p h' t' E Hh. unfold way, start.
    rewrite (components_split _ _ _ E), (split_head_startswith _ _ _ E Hh).
    apply visited_app. }
  destruct (posixpath.nonempty t).
  - intros [= <- <-]. by apply (Hone _ _ _ E1).
  - intros E2 Hh Hl. apply (Hone _ _ _ E1).
    + intros ->. by injection E2 as <- <-.
    + by apply (Hone _ _ _ E2).
Qed.

Lemma plain_makedirs_split name head tail :
  os.makedirs_split name = (head, tail) → plain name = true → plain head = true.
Proof.
  unfold os.makedirs_split. destruct (posixpath.split name) as [h t] eqn:E1.
  intros E2 Hp. pose proof (plain_split _ _ _ E1 Hp) as [Hh _].
  destruct (posixpath.nonempty t).
  - by injection E2 as <- <-.
  - by apply (plain_split _ _ _ E2).
Qed.

Lemma way_cwd fs fs' p : cwd fs' = cwd fs → way fs' p = way fs p.
Proof. intros H. unfold way, start. by rewrite H. Qed.

Lemma target_cwd fs fs' p : cwd fs' = cwd fs → target fs' p = target fs p.
Proof. intros H. unfold target, start. by rewrite H. Qed.

(** [os.makedirs] only ever adds directories, and only on the way to the
    path it is asked for, whether it returns or raises. *)
Lemma makedirs_at_adds depth name exist_ok fs :
  adds_dirs fs (snd (os.makedirs_at depth name exist_ok fs))
    (λ l, plain name = true → l ∈ way fs name).
Proof.
  apply (os.makedirs_at_elim
    (λ depth name exist_ok fs r,
       adds_dirs fs (snd r) (λ l, plain name = true → l ∈ way fs name)));
    clear depth name exist_ok fs.
  - intros depth name head tail _ exist_ok fs _ _ _.
    rewrite mkdir_tolerant_snd. apply mkdir_adds.
  - intros depth name head tail Hsplit exist_ok fs _ Hcond IH _ _ _.
    apply andb_prop in Hcond as [[Hhead%nonempty_true _]%andb_prop _].
    assert (adds_dirs fs (snd (os.makedirs_at (S depth) head exist_ok fs))
              (λ l, plain name = true → l ∈ way fs name)) as IH'.
    { eapply adds_dirs_weaken; [|exact IH]. intros l Hl Hp. simpl in Hl.
      apply (way_makedirs_split _ _ _ _ _ Hsplit Hhead), Hl.
      by apply (plain_makedirs_split _ _ _ Hsplit). }
    clear IH.
    assert (∀ fs1, adds_dirs fs fs1 (λ l, plain name = true → l ∈ way fs name) →
              adds_dirs fs (snd (os.mkdir_tolerant name exist_ok fs1))
                (λ l, plain name = true → l ∈ way fs name)) as Hlast.
    { intros fs1 H1. eapply adds_dirs_trans; [done|].
      rewrite mkdir_tolerant_snd. eapply adds_dirs_weaken; [|apply mkdir_adds].
      intros l Hl Hp. simpl in Hl. destruct H1 as (Hcwd & _).
      rewrite <- (way_cwd fs fs1) by done. by apply Hl. }
    destruct (os.makedirs_at (S depth) head exist_ok fs) as [[[]|e] fs1]; simpl in *.
    + case_bool_decide; [done|]. by apply Hlast.
    + destruct (is_FileExistsError e); [|done].
      case_bool_decide; [done|]. by apply Hlast.
  - intros depth name head tail _ exist_ok fs _ _ _ _ _. apply adds_dirs_refl.
Qed.

Lemma makedirs_adds name exist_ok fs :
  adds_dirs fs (snd (os.makedirs name exist_ok fs))
    (λ l, plain name = true → l ∈ way fs name).
Proof. apply makedirs_at_adds. Qed.

(** A walk does not see what is put where no directory was. *)
Lemma walk_put fs l (nd : node) cur cs l' :
  node_at fs l ≠ Some Dir → l ≠ [] →
  walk fs cur cs = Return l' → walk (put_node l nd fs) cur cs = Return l'.
Proof.
  intros Hl Hne. revert cur. induction cs as [|c cs IH]; intros cur; simpl; [done|].
  destruct (step fs cur c) as [next|] eqn:Hs; [|done].
  apply step_Return in Hs as (Hcur & Hfit & ->). intros Hw.
  rewrite step_dir; [by apply IH| |done].
  rewrite node_at_put by done. case_decide; [congruence|done].
Qed.

Lemma resolve_put fs l (nd : node) p l' :
  node_at fs l ≠ Some Dir → l ≠ [] →
  resolve fs p = Return l' → resolve (put_node l nd fs) p = Return l'.
Proof.
  intros Hl Hne. unfold resolve. destruct (posixpath.nonempty p); [|done].
  change (host (put_node l nd fs)) with (host fs).
  destruct (_ <=? _); [|done]. apply walk_put; done.
Qed.

Lemma lookup_put fs l (nd : node) p l' :
  node_at fs l ≠ Some Dir → l ≠ [] →
  lookup fs p = Return l' → lookup (put_node l nd fs) p = Return l'.
Proof.
  intros Hl Hne. unfold lookup. destruct (path_arg p); [|done]. by apply resolve_put.
Qed.

(** What a successful [open] says about the path. *)
Lemma open_w_Return p fs l fs' :
  open_w p fs = (Return l, fs') →
  lookup fs p = Return l ∧ node_at fs l ≠ Some Dir ∧ l ≠ []
  ∧ posixpath.endswith_sep p = false ∧ fs' = put_node l (File "") fs.
Proof.
  unfold open_w. destruct (locate fs SysOpen p) as [l0|] eqn:Hloc; [|done].
  apply locate_lookup in Hloc.
  destruct (node_at fs l0) as [[|c]|] eqn:Hnode; [done| |];
    destruct (posixpath.endswith_sep p); try done; intros [= <- <-];
    (split; [done|]; split; [congruence|]; split; [by intros ->; simpl in Hnode|done]).
Qed.

Lemma open_w_Raise p fs e fs' : open_w p fs = (Raise e, fs') → fs' = fs.
Proof.
  unfold open_w. destruct (locate fs SysOpen p) as [l0|]; [|by intros [= _ <-]].
  destruct (node_at fs l0) as [[|c]|]; [by intros [= _ <-]| |];
    destruct (posixpath.endswith_sep p); by intros [= _ <-].
Qed.

Lemma slice_app k t : t = posixpath.slice_to k t +:+ posixpath.slice_from k t.
Proof.
  revert k. induction t as [|c r IH]; intros [|k]; simpl; try done.
  by rewrite str_app_cons, <- IH.
Qed.

(** What [write] leaves in a file just opened: the text when it returns,
    a beginning of the text when it raises. *)
Lemma file_write_opened l t fs :
  l ≠ [] →
  ∃ c, snd (file_write l t (put_node l (File "") fs)) = put_node l (File c) fs
       ∧ begins c t
       ∧ (fst (file_write l t (put_node l (File "") fs)) = Return () → c = t).
Proof.
  intros Hne. unfold file_write, utf8_encode.
  assert (∀ d, append l d (put_node l (File "") fs) = put_node l (File d) fs) as Happ.
  { intros d. unfold append. rewrite node_at_put by done. rewrite decide_True by done.
    by rewrite put_node_put, str_app_nil_l. }
  destruct (has_surrogate t).
  { exists "". split; [done|]. split; [by exists t|done]. }
  destruct (os_refusal _ _); simpl; rewrite Happ.
  - eexists. split; [done|]. split; [|done]. eexists. apply slice_app.
  - exists t. split; [done|]. split; [|done]. exists "". by rewrite str_app_nil_r.
Qed.

(** The file system a call of the tool leaves, in terms of the one that
    [os.makedirs] leaves: that one, or that one with a regular file at the
    path. *)
Lemma export_snd ctx f n t fs :
  let fs1 := snd (os.makedirs (posixpath.dirname (posixpath.join f n)) true fs) in
  snd (export_verdict_to_txt ctx f n t fs) = fs1
  ∨ ∃ l c, lookup fs1 (posixpath.join f n) = Return l
           ∧ node_at fs1 l ≠ Some Dir ∧ l ≠ []
           ∧ posixpath.endswith_sep (posixpath.join f n) = false
           ∧ begins c t
           ∧ (∀ status, fst (export_verdict_to_txt ctx f n t fs) = Return status → c = t)
           ∧ snd (export_verdict_to_txt ctx f n t fs) = put_node l (File c) fs1.
Proof.
  intros fs1. rewrite export_cases. subst fs1.
  destruct (os.makedirs _ true fs) as [[[]|e] fs1]; simpl; [|by left].
  destruct (open_w _ fs1) as [[l|e] fs2] eqn:Hopen; simpl.
  - right. apply open_w_Return in Hopen as (Hres & Hnode & Hne & Hend & ->).
    destruct (file_write_opened l t fs1 Hne) as (c & Hsnd & Hbeg & Hret).
    exists l, c. repeat split; try done.
    + intros status. destruct (file_write l t _) as [[[]|e] fs3]; [|done].
      intros _. by apply Hret.
    + by destruct (file_write l t _) as [[[]|e] fs3].
  - left. by apply open_w_Raise in Hopen.
Qed.

Lemma export_status ctx f n t fs status :
  fst (export_verdict_to_txt ctx f n t fs) = Return status → status = status_success.
Proof.
  rewrite export_cases.
  destruct (os.makedirs _ true fs) as [[[]|?] ?]; [|done].
  destruct (open_w _ _) as [[?|?] ?]; [|done].
  destruct (file_write _ _ _) as [[[]|?] ?]; [|done]. by intros [= <-].
Qed.

Lemma export_Return ctx f n t fs status :
  fst (export_verdict_to_txt ctx f n t fs) = Return status →
  ∃ l, lookup (snd (os.makedirs (posixpath.dirname (posixpath.join f n)) true fs))
         (posixpath.join f n) = Return l
       ∧ node_at (snd (os.makedirs (posixpath.dirname (posixpath.join f n)) true fs)) l
         ≠ Some Dir
       ∧ l ≠ []
       ∧ posixpath.endswith_sep (posixpath.join f n) = false
       ∧ snd (export_verdict_to_txt ctx f n t fs)
         = put_node l (File t)
             (snd (os.makedirs (posixpath.dirname (posixpath.join f n)) true fs)).
Proof.
  rewrite export_cases.
  destruct (os.makedirs _ true fs) as [[[]|e] fs1]; simpl; [|done].
  destruct (open_w _ fs1) as [[l|e] fs2] eqn:Hopen; simpl; [|done].
  apply open_w_Return in Hopen as (Hres & Hnode & Hne & Hend & ->).
  destruct (file_write_opened l t fs1 Hne) as (c & Hsnd & _ & Hret).
  destruct (file_write l t _) as [[[]|e] fs3]; [|done]. simpl in *.
  intros _. exists l. rewrite Hret in Hsnd by done. by subst fs3.
Qed.

(** *** Well-formedness is kept *)

Lemma components_nil_absolute p :
  posixpath.components p = [] → p ≠ "" → posixpath.startswith_sep p = true.
Proof.
  destruct p as [|c r]; [done|]. intros H _. simpl.
  destruct (posixpath.is_sep c) eqn:Hc; [done|].
  unfold posixpath.components in H. simpl in H. rewrite Hc in H.
  destruct (posixpath.split_sep r); by rewrite filter_cons_True in H.
Qed.

(** The last step of a walk leaves a directory. *)
Lemma walk_last fs cur cs l :
  cs ≠ [] → walk fs cur cs = Return l →
  ∃ cur' c, node_at fs cur' = Some Dir ∧ l = move cur' c.
Proof.
  revert cur. induction cs as [|c cs IH]; intros cur Hne; [done|]. simpl.
  destruct (step fs cur c) as [next|] eqn:Hs; [|done].
  apply step_Return in Hs as (Hcur & _ & ->).
  destruct cs as [|c' cs'].
  - simpl. intros [= <-]. by exists cur, c.
  - by apply IH.
Qed.

(** A path that resolves to a place where nothing is names an entry of a
    directory. *)
Lemma resolve_absent_parent fs p l :
  fs_wf fs → resolve fs p = Return l → node_at fs l = None →
  ∃ c up, l = c :: up ∧ node_at fs up = Some Dir.
Proof.
  intros Hwf [Hp Hw]%resolve_Return.
  destruct (posixpath.components p) as [|c0 cs0] eqn:Hcs.
  - simpl in Hw. injection Hw as <-. intros Hl. unfold start in Hl.
    by rewrite (components_nil_absolute _ Hcs Hp) in Hl.
  - intros Hl. apply walk_last in Hw as (cur & c & Hcur & ->); [|done].
    rewrite (move_absent _ _ _ Hwf Hcur Hl) in *. by eexists _, _.
Qed.

Lemma mkdir_wf name fs : fs_wf fs → fs_wf (snd (os.mkdir name fs)).
Proof.
  intros Hwf. unfold os.mkdir. destruct (locate fs SysMkdir name) as [l|] eqn:Hloc; [|done].
  apply locate_Return in Hloc as (b & _ & Hres).
  destruct (node_at fs l) eqn:Hl; [done|]. simpl.
  destruct (resolve_absent_parent _ _ _ Hwf Hres Hl) as (c & up & -> & Hup).
  apply fs_wf_put; [done..|]. by rewrite Hl.
Qed.

Lemma makedirs_at_wf depth name exist_ok fs :
  fs_wf fs → fs_wf (snd (os.makedirs_at depth name exist_ok fs)).
Proof.
  apply (os.makedirs_at_elim (λ depth name exist_ok fs r, fs_wf fs → fs_wf (snd r)));
    clear depth name exist_ok fs.
  - intros depth name head tail _ exist_ok fs _ _ _ Hwf.
    rewrite mkdir_tolerant_snd. by apply mkdir_wf.
  - intros depth name head tail _ exist_ok fs _ _ IH _ _ _ Hwf. specialize (IH Hwf).
    destruct (os.makedirs_at (S depth) head exist_ok fs) as [[[]|e] fs1]; simpl in *.
    + case_bool_decide; [done|]. rewrite mkdir_tolerant_snd. by apply mkdir_wf.
    + destruct (is_FileExistsError e); [|done].
      case_bool_decide; [done|]. rewrite mkdir_tolerant_snd. by apply mkdir_wf.
  - by intros depth name head tail _ exist_ok fs _ _ _ _ _ Hwf.
Qed.

Lemma makedirs_wf name exist_ok fs : fs_wf fs → fs_wf (snd (os.makedirs name exist_ok fs)).
Proof. apply makedirs_at_wf. Qed.

Lemma put_file_wf fs p l (nd : node) :
  fs_wf fs → lookup fs p = Return l → node_at fs l ≠ Some Dir → l ≠ [] →
  nd ≠ Dir → fs_wf (put_node l nd fs).
Proof.
  intros Hwf (b & _ & Hres)%lookup_Return Hnode Hne Hnd.
  destruct (node_at fs l) as [old|] eqn:Hl.
  - destruct l as [|c up]; [done|]. apply fs_wf_put; [done| |by rewrite Hl].
    by apply (fs_wf_parent _ c _ old).
  - destruct (resolve_absent_parent _ _ _ Hwf Hres Hl) as (c & up & -> & Hup).
    apply fs_wf_put; [done..|]. by rewrite Hl.
Qed.

(** *** [join] and [split] *)

Lemma split_join_parts f n :
  posixpath.sep_free n = true →
  posixpath.split (posixpath.join f n) = (posixpath.strip f, n).
Proof.
  intros Hn. rewrite join_sep_free by done.
  destruct (decide (f = "")) as [->|Hf].
  { cbn [posixpath.nonempty negb orb]. by rewrite str_app_nil_l, split_sep_free. }
  apply nonempty_true in Hf as Hf'. rewrite Hf'. cbn [negb]. rewrite orb_false_l.
  unfold posixpath.strip. destruct (posixpath.endswith_sep f) eqn:He.
  - apply endswith_sep_inv in He as [a ->].
    rewrite str_app_assoc, split_app_sep by done.
    rewrite all_sep_app. change (posixpath.all_sep "/") with true. rewrite andb_true_r.
    destruct (posixpath.all_sep a); [done|]. f_equal. symmetry.
    apply (rstrip_sep_app_seps a 1).
  - rewrite split_app_sep by done.
    destruct (posixpath.all_sep f) eqn:Ha; [|done].
    by rewrite all_sep_endswith in He.
Qed.

(** *** The directories of a call *)

(** The directories that a call of the tool makes lie on the way to the
    folder. *)
Lemma export_adds ctx fs f n t l :
  posixpath.sep_free n = true → f ≠ "" → plain f = true →
  node_at fs l = None → node_at (snd (export_verdict_to_txt ctx f n t fs)) l = Some Dir →
  l ∈ way fs f.
Proof.
  intros Hn Hf Hp Hold Hnew.
  pose proof (makedirs_adds (posixpath.dirname (posixpath.join f n)) true fs)
    as (_ & _ & Hadd).
  assert (node_at (snd (os.makedirs (posixpath.dirname (posixpath.join f n)) true fs)) l
          = Some Dir) as Hl1.
  { destruct (export_snd ctx f n t fs) as [Heq|(l0 & c & _ & _ & Hne & _ & _ & _ & Heq)];
      rewrite Heq in Hnew; [done|].
    rewrite node_at_put in Hnew by done. by case_decide. }
  destruct (Hadd l) as [E|(_ & _ & Hway)]; [congruence|].
  rewrite dirname_join in Hway by done. rewrite <- way_strip. apply Hway.
  by apply plain_strip.
Qed.

Lemma walk_fits fs cur cs l :
  walk fs cur cs = Return l → forallb (name_fits fs) cs = true.
Proof.
  revert cur. induction cs as [|c cs IH]; intros cur; simpl; [done|].
  destruct (step fs cur c) as [next|] eqn:Hs; [|done].
  apply step_Return in Hs as (_ & -> & _). apply IH.
Qed.

Lemma resolve_length fs p l : resolve fs p = Return l → String.length p ≤ path_max (host fs).
Proof.
  unfold resolve. destruct (posixpath.nonempty p); [|done].
  destruct (_ <=? _) eqn:E; [|done]. intros _. by apply Nat.leb_le.
Qed.

Lemma join_no_name f : f ≠ "" → posixpath.endswith_sep (posixpath.join f "") = true.
Proof.
  intros Hf. rewrite join_sep_free by done.
  apply nonempty_true in Hf as ->. cbn [negb]. rewrite orb_false_l.
  destruct (posixpath.endswith_sep f) eqn:He.
  - by rewrite str_app_nil_r.
  - rewrite <- str_app_assoc, str_app_nil_r. apply endswith_sep_app_sep.
Qed.

(** When a call of the tool returns, the folder is a directory and the file
    name is the name of an entry in it. *)
Lemma export_returns_dir ctx fs f n t status :
  fs_wf fs → posixpath.sep_free n = true → f ≠ "" →
  plain (posixpath.join f n) = true →
  fst (export_verdict_to_txt ctx f n t fs) = Return status →
  file_name_ok n = true
  ∧ resolve (snd (export_verdict_to_txt ctx f n t fs)) f = Return (target fs f)
  ∧ (∀ l, l ∈ way fs f → node_at (snd (export_verdict_to_txt ctx f n t fs)) l = Some Dir)
  ∧ node_at (snd (export_verdict_to_txt ctx f n t fs)) (n :: target fs f) = Some (File t).
Proof.
  intros Hwf Hn Hf Hp Hret.
  destruct (export_Return ctx f n t fs status Hret) as (l & Hl & Hnode & Hne & Hend & ->).
  pose proof (makedirs_wf (posixpath.dirname (posixpath.join f n)) true fs Hwf) as Hwf1.
  pose proof (makedirs_adds (posixpath.dirname (posixpath.join f n)) true fs)
    as (Hcwd & Hhost & _).
  set (fs1 := snd (os.makedirs (posixpath.dirname (posixpath.join f n)) true fs)) in *.
  rewrite lookup_plain in Hl by done.
  assert (n ≠ "") as Hnn.
  { intros ->. by rewrite join_no_name in Hend. }
  pose proof (resolve_length _ _ _ Hl) as Hlen.
  apply resolve_Return in Hl as [_ Hw].
  assert (start fs1 (posixpath.join f n) = start fs f) as Hstart.
  { unfold start. by rewrite startswith_sep_join, Hcwd. }
  rewrite Hstart, components_join, walk_app in Hw by done.
  destruct (walk fs1 (start fs f) (posixpath.components f)) as [l1|] eqn:Hw1; [|done].
  simpl in Hw. destruct (step fs1 l1 n) as [l2|] eqn:Hs; [|done].
  injection Hw as ->. apply step_Return in Hs as (Hl1 & Hfit & ->).
  destruct (walk_Return _ _ _ _ Hw1 Hl1) as [-> Hdirs].
  fold (target fs f) in *. fold (way fs f) in Hdirs.
  assert (n ≠ "." ∧ n ≠ "..") as [Hdot Hdots].
  { unfold move in Hnode. split; intros ->; simpl in Hnode; [done|].
    destruct (target fs f) as [|c up]; [done|]. simpl in Hnode.
    by rewrite (fs_wf_parent _ _ _ _ Hwf1 Hl1) in Hnode. }
  rewrite move_name in * by done.
  assert (∀ l, l ∈ way fs f →
            node_at (put_node (n :: target fs f) (File t) fs1) l = Some Dir) as Hdirs'.
  { intros l Hl. rewrite node_at_put by done.
    rewrite decide_False; [by apply Hdirs|]. intros ->. by rewrite (Hdirs _ Hl) in Hnode. }
  split; [by apply file_name_ok_spec|]. split; [|split; [done|]].
  - rewrite resolve_walk; [|done|].
    + assert (start (put_node (n :: target fs f) (File t) fs1) f = start fs f) as ->
        by (unfold start; simpl; by rewrite Hcwd).
      apply walk_dirs; [|done]. apply (walk_fits _ _ _ _ Hw1).
    + change (host (put_node _ _ fs1)) with (host fs1).
      pose proof (join_length f n Hn). lia.
  - rewrite node_at_put by done. by rewrite decide_True.
Qed.

End ExportMore.

(** ** Facts about the engine *)

Section EngineFacts.

Variable capability : string → nat → World → list tool_call.

Implicit Types (p : event → bool) (tr : list event) (s body : step_fn) (w : World)
  (now k index : nat) (name : string).

(** Case analysis on what a tool returned. *)
Ltac tool_cases :=
  repeat match goal with
         | |- context [update_session_state ?c ?k ?v] =>
             destruct (update_session_state c k v) as [[?|?] ?]; simpl
         | |- context [export_verdict_to_txt ?c ?f ?n ?t ?fs] =>
             destruct (export_verdict_to_txt c f n t fs) as [[?|?] ?]; simpl
         end.

Lemma count_app p tr1 tr2 : count p (tr1 ++ tr2) = count p tr1 + count p tr2.
Proof. unfold count. by rewrite List.filter_app, length_app. Qed.

Lemma count_cons p ev tr : count p (ev :: tr) = (if p ev then 1 else 0) + count p tr.
Proof. unfold count. simpl. by destruct (p ev). Qed.

Lemma count_nil p : count p [] = 0.
Proof. done. Qed.

(** The calls of a step leave call events only. *)
Lemma run_calls_count p name tools subs calls now w :
  (∀ a c st, p (EvCall a c st) = false) →
  count p (trace (run_calls name tools subs calls now w)) = 0.
Proof.
  intros Hp. revert w. induction calls as [|call rest IH]; intros w; simpl; [done|].
  destruct (bound tools subs call); simpl.
  - destruct call; simpl; tool_cases; rewrite ?count_cons, ?Hp, ?IH; done.
  - by rewrite count_cons, Hp, IH.
Qed.

Lemma run_calls_clock name tools subs calls now w :
  clock (run_calls name tools subs calls now w) = now.
Proof.
  revert w. induction calls as [|call rest IH]; intros w; simpl; [done|].
  destruct (bound tools subs call); simpl; [|apply IH].
  destruct call; simpl; tool_cases; rewrite ?IH; done.
Qed.

(** A step raises the signal exactly when it makes the exit call. *)
Lemma run_calls_signal name tools subs calls now w :
  signal (run_calls name tools subs calls now w) = true ↔
  EvCall name CallExitLoop Signalled ∈ trace (run_calls name tools subs calls now w).
Proof.
  revert w. induction calls as [|call rest IH]; intros w; simpl.
  { split; [done|]. by intros ?%elem_of_nil. }
  destruct (bound tools subs call); simpl.
  - destruct call; simpl; tool_cases;
      rewrite ?elem_of_cons, ?IH, ?elem_of_nil;
      intuition (try discriminate; try congruence).
  - rewrite elem_of_cons, IH. intuition discriminate.
Qed.

(** The signal is raised by the last call of the step. *)
Lemma run_calls_signal_last name tools subs calls now w :
  signal (run_calls name tools subs calls now w) = true →
  last (trace (run_calls name tools subs calls now w))
  = Some (EvCall name CallExitLoop Signalled).
Proof.
  revert w. induction calls as [|call rest IH]; intros w; simpl; [done|].
  destruct (bound tools subs call); simpl.
  - destruct call; simpl; tool_cases; try done; intros Hs;
      rewrite last_cons, (IH _ Hs); done.
  - intros Hs. by rewrite last_cons, (IH _ Hs).
Qed.

(** A step that has the exit tool and nothing else raises the signal
    exactly when the capability asks for the exit. *)
Lemma run_calls_exit_only name calls now w :
  signal (run_calls name [ExitLoop] [] calls now w) = true ↔ CallExitLoop ∈ calls.
Proof.
  revert w. induction calls as [|call rest IH]; intros w.
  { simpl. split; [done|]. by intros ?%elem_of_nil. }
  rewrite elem_of_cons. destruct call; simpl; rewrite ?IH;
    intuition (try discriminate; try congruence).
Qed.

(** A step without the exit tool never raises the signal. *)
Lemma run_calls_quiet name tools subs calls now w :
  ExitLoop ∉ tools → signal (run_calls name tools subs calls now w) = false.
Proof.
  intros Hno. revert w. induction calls as [|call rest IH]; intros w; simpl; [done|].
  destruct (bound tools subs call) eqn:Hb; simpl; [|apply IH].
  destruct call; simpl; tool_cases; rewrite ?IH; try done.
  simpl in Hb. by apply bool_decide_eq_true in Hb.
Qed.

Lemma agent_step_count p name tools subs now w :
  (∀ a c st, p (EvCall a c st) = false) →
  count p (trace (agent_step capability name tools subs now w))
  = if p (EvStep name) then 1 else 0.
Proof. intros Hp. unfold agent_step; simpl. by rewrite count_cons, run_calls_count. Qed.

Lemma agent_step_clock name tools subs now w :
  clock (agent_step capability name tools subs now w) = S now.
Proof. unfold agent_step; simpl. apply run_calls_clock. Qed.

(** An agent without sub-agents runs its own step and nothing else. *)
Lemma exec_leaf name model description instruction tools now w :
  exec capability (Agent name model description instruction tools []) now w
  = agent_step capability name tools [] now w.
Proof. simpl. by destruct (transfer _). Qed.

Lemma exec_loop name subs max now w :
  exec capability (LoopAgent name subs max) now w
  = loop_steps name (seq_steps (map (exec capability) subs)) max 0 now w.
Proof. done. Qed.

Lemma exec_parallel name subs now w :
  exec capability (ParallelAgent name subs) now w
  = par_steps (map (exec capability) subs) now w.
Proof. done. Qed.

(** *** Sequences *)

Lemma seq_steps_cons s rest now w :
  seq_steps (s :: rest) now w
  = if signal (s now w) then s now w
    else {| world := world (seq_steps rest (clock (s now w)) (world (s now w)));
            clock := clock (seq_steps rest (clock (s now w)) (world (s now w)));
            trace := trace (s now w)
                     ++ trace (seq_steps rest (clock (s now w)) (world (s now w)));
            signal := signal (seq_steps rest (clock (s now w)) (world (s now w)));
            transfer := None |}.
Proof. done. Qed.

(** When a step of a sequence raises the signal, the sequence ends where
    that step ends: the steps after it leave no trace. *)
Lemma seq_steps_signal (before : list step_fn) s (after : list step_fn) now w :
  signal (seq_steps before now w) = false →
  signal (s (clock (seq_steps before now w)) (world (seq_steps before now w))) = true →
  let r1 := seq_steps before now w in
  let r2 := s (clock r1) (world r1) in
  let r := seq_steps (before ++ s :: after) now w in
  world r = world r2 ∧ clock r = clock r2
  ∧ trace r = trace r1 ++ trace r2 ∧ signal r = true.
Proof.
  revert now w. induction before as [|s0 before IH]; intros now w.
  - simpl. intros _ Hs. by rewrite Hs.
  - rewrite <- app_comm_cons, !seq_steps_cons.
    destruct (signal (s0 now w)) eqn:Hs0; [simpl; intros H; congruence|]. simpl.
    intros H1 H2. destruct (IH _ _ H1 H2) as (Hw & Hc & Ht & Hsig).
    by rewrite Hw, Hc, Ht, Hsig, app_assoc.
Qed.

Lemma seq_steps_count_le p (steps : list step_fn) (bounds : list nat) now w :
  Forall2 (λ s m, ∀ now w, count p (trace (s now w)) ≤ m) steps bounds →
  count p (trace (seq_steps steps now w)) ≤ sum_list bounds.
Proof.
  intros H. revert now w. induction H as [|s m steps bounds Hs _ IH]; intros now w.
  - simpl. rewrite count_nil. lia.
  - rewrite seq_steps_cons. specialize (Hs now w).
    destruct (signal (s now w)); simpl; [lia|].
    rewrite count_app. specialize (IH (clock (s now w)) (world (s now w))). lia.
Qed.

Lemma par_steps_count_le p (steps : list step_fn) (bounds : list nat) now w :
  Forall2 (λ s m, ∀ now w, count p (trace (s now w)) ≤ m) steps bounds →
  count p (trace (par_steps steps now w)) ≤ sum_list bounds.
Proof.
  intros H. revert now w. induction H as [|s m steps bounds Hs _ IH]; intros now w.
  - simpl. rewrite count_nil. lia.
  - simpl. rewrite count_app. specialize (Hs now w).
    specialize (IH (clock (s now w)) (world (s now w))). lia.
Qed.

Lemma par_steps_quiet (steps : list step_fn) now w :
  Forall (λ s, ∀ now w, signal (s now w) = false) steps →
  signal (par_steps steps now w) = false.
Proof.
  intros H. revert now w. induction H as [|s steps Hs _ IH]; intros now w; simpl; [done|].
  by rewrite Hs, IH.
Qed.

Lemma leaf_quiet name model description instruction tools now w :
  ExitLoop ∉ tools →
  signal (exec capability (Agent name model description instruction tools []) now w) = false.
Proof.
  intros H. rewrite exec_leaf. unfold agent_step. cbn [signal]. by apply run_calls_quiet.
Qed.

(** *** Loops *)

Lemma loop_steps_signal name body k index now w :
  signal (loop_steps name body k index now w) = false.
Proof.
  revert index now w. induction k as [|k IH]; intros index now w; simpl; [done|].
  destruct (signal (body now w)); simpl; [done|apply IH].
Qed.

(** A loop begins at most as many iterations as its bound allows. *)
Lemma loop_steps_iterations name body k index now w :
  (∀ now w, count (is_iteration name) (trace (body now w)) = 0) →
  count (is_iteration name) (trace (loop_steps name body k index now w)) ≤ k.
Proof.
  intros Hbody. revert index now w. induction k as [|k IH]; intros index now w; simpl.
  - rewrite count_nil. lia.
  - destruct (signal (body now w)); simpl; rewrite count_cons; simpl;
      rewrite bool_decide_eq_true_2 by done.
    + rewrite Hbody. lia.
    + rewrite count_app, Hbody. specialize (IH (S index) (clock (body now w)) (world (body now w))).
      lia.
Qed.

(** Without a signal the loop begins every iteration its bound allows. *)
Lemma loop_steps_maxed_out name body k index now w :
  (∀ now w, count (is_iteration name) (trace (body now w)) = 0) →
  (∀ now w, signal (body now w) = false) →
  count (is_iteration name) (trace (loop_steps name body k index now w)) = k.
Proof.
  intros Hbody Hquiet. revert index now w. induction k as [|k IH]; intros index now w; simpl.
  - by rewrite count_nil.
  - rewrite Hquiet; simpl. rewrite count_cons; simpl.
    rewrite bool_decide_eq_true_2 by done. by rewrite count_app, Hbody, IH.
Qed.

Lemma loop_steps_count_le p m name body k index now w :
  (∀ i, p (EvIteration name i) = false) →
  (∀ now w, count p (trace (body now w)) ≤ m) →
  count p (trace (loop_steps name body k index now w)) ≤ k * m.
Proof.
  intros Hp Hbody. revert index now w. induction k as [|k IH]; intros index now w; simpl.
  - rewrite count_nil. lia.
  - specialize (Hbody now w).
    destruct (signal (body now w)); simpl; rewrite count_cons, Hp; simpl.
    + lia.
    + rewrite count_app. specialize (IH (S index) (clock (body now w)) (world (body now w))).
      lia.
Qed.

(** *** The loop of the module *)

(** Only the judge has the exit tool: the investigation never raises the
    signal, the judge raises it exactly when it is asked to exit, and the
    exit call is then the last event of its step. *)
Lemma investigation_stage_quiet environ now w :
  signal (exec capability (investigation_stage environ) now w) = false.
Proof.
  unfold investigation_stage. rewrite exec_parallel.
  apply par_steps_quiet. unfold the_admirer, the_critic.
  repeat constructor; intros now' w'; apply leaf_quiet;
    intros H; repeat (apply elem_of_cons in H as [H|H]; [discriminate|]);
    by apply elem_of_nil in H.
Qed.

Lemma judge_signal environ now w :
  signal (exec capability (the_judge environ) now w) = true
  ↔ CallExitLoop ∈ capability "judge" now w.
Proof.
  unfold the_judge. rewrite exec_leaf. unfold agent_step. cbn [signal].
  apply run_calls_exit_only.
Qed.

Lemma judge_exit_last environ now w :
  CallExitLoop ∈ capability "judge" now w →
  last (trace (exec capability (the_judge environ) now w))
  = Some (EvCall "judge" CallExitLoop Signalled).
Proof.
  intros H. pose proof (proj2 (judge_signal environ now w) H) as Hs. revert Hs.
  unfold the_judge. rewrite exec_leaf. unfold agent_step. cbn [signal trace].
  intros Hs. apply run_calls_signal_last in Hs.
  rewrite last_cons, Hs. done.
Qed.

Lemma review_round_count p environ now w :
  (∀ a c st, p (EvCall a c st) = false) →
  count p (trace (seq_steps (map (exec capability)
                     [investigation_stage environ; the_judge environ]) now w))
  ≤ (if p (EvStep "admirer") then 1 else 0) + (if p (EvStep "critic") then 1 else 0)
    + (if p (EvStep "judge") then 1 else 0).
Proof.
  intros Hp.
  etrans; [apply (seq_steps_count_le p _
    [(if p (EvStep "admirer") then 1 else 0) + (if p (EvStep "critic") then 1 else 0);
     (if p (EvStep "judge") then 1 else 0)])|simpl; lia].
  repeat constructor.
  - intros now' w'. unfold investigation_stage. rewrite exec_parallel.
    etrans; [apply (par_steps_count_le p _
      [(if p (EvStep "admirer") then 1 else 0); (if p (EvStep "critic") then 1 else 0)])
            |simpl; lia].
    repeat constructor; intros now'' w''; unfold the_admirer, the_critic;
      rewrite exec_leaf, agent_step_count by done; lia.
  - intros now' w'. unfold the_judge. rewrite exec_leaf, agent_step_count by done. lia.
Qed.

Lemma review_round_quiet environ now w :
  (∀ now w, CallExitLoop ∉ capability "judge" now w) →
  signal (seq_steps (map (exec capability)
            [investigation_stage environ; the_judge environ]) now w) = false.
Proof.
  intros Hno. cbn [map]. rewrite !seq_steps_cons, investigation_stage_quiet.
  cbn [signal].
  destruct (signal (exec capability (the_judge environ) _ _)) eqn:Hj; [|done].
  apply judge_signal in Hj. by apply Hno in Hj.
Qed.

End EngineFacts.

(** ** The file export *)

(** C4, amended: on a well-formed file system whose host refuses nothing,
    for a folder [f] that is not empty and whose way is clear, a file name
    [n] proper (not empty, no separator, neither [.] nor [..]) whose slot
    in [f] is free, both within the limits of the host (no null byte and no
    surrogate in the path, no name and no path too long, no more names in
    [f] than the interpreter has room for), and texts [t] and [t'] that
    UTF-8 encodes: the call returns success, leaves a directory at every
    location on the way to [f] and at [f] itself, and leaves [f/n] holding
    exactly [t]; a second call with [t'] returns success and leaves [f/n]
    holding exactly [t']. *)
Theorem export_verdict_creates_then_overwrites
    (ctx : ToolContext) (fs : FileSystem) (f n t t' : string) :
  fs_wf fs → permissive fs → f ≠ "" → file_name_ok n = true →
  within_limits fs f n = true → encodable t = true → encodable t' = true →
  clear_way fs f = true → slot_free fs f n = true →
  ∃ fs1 fs2,
    export_verdict_to_txt ctx f n t fs = (Return status_success, fs1)
    ∧ (∀ l, l ∈ way fs f → node_at fs1 l = Some Dir)
    ∧ os.path_isdir fs1 f = true
    ∧ read_file fs1 (posixpath.join f n) = Return t
    ∧ export_verdict_to_txt ctx f n t' fs1 = (Return status_success, fs2)
    ∧ os.path_isdir fs2 f = true
    ∧ read_file fs2 (posixpath.join f n) = Return t'.
Proof.
  intros Hwf Hperm Hf Hn Hlim Ht Ht' Hclear Hslot.
  destruct (export_ok ctx fs f n t Hwf Hperm Hf Hn Hlim Ht Hclear Hslot)
    as (fs1 & Hcall1 & Hwf1 & Hcwd1 & Hhost1 & Hdirs1 & Hfile1 & _).
  destruct (export_ok_again fs fs1 f n t Hcwd1 Hdirs1 Hfile1 Hslot)
    as (Hway1 & Htarget1 & Hclear1 & Hslot1).
  pose proof (permissive_host _ _ Hhost1 Hperm) as Hperm1.
  assert (within_limits fs1 f n = true) as Hlim1 by by rewrite (within_limits_host fs).
  destruct (export_ok ctx fs1 f n t' Hwf1 Hperm1 Hf Hn Hlim1 Ht' Hclear1 Hslot1)
    as (fs2 & Hcall2 & Hwf2 & Hcwd2 & Hhost2 & Hdirs2 & Hfile2 & _).
  pose proof (permissive_host _ _ Hhost2 Hperm1) as Hperm2.
  assert (within_limits fs2 f n = true) as Hlim2 by by rewrite (within_limits_host fs1).
  rewrite <- Hway1 in Hdirs1. rewrite <- Htarget1 in Hfile1.
  destruct (export_ok_again fs1 fs2 f n t' Hcwd2 Hdirs2 Hfile2 Hslot1)
    as (Hway2 & Htarget2 & _).
  rewrite <- Hway2 in Hdirs2. rewrite <- Htarget2 in Hfile2.
  apply within_limits_spec in Hlim1 as [Hfits1 _], Hlim2 as [Hfits2 _].
  pose proof Hn as (Hfree & Hne & _)%file_name_ok_spec.
  destruct (path_fits_join _ _ _ Hfree Hne Hfits1) as [Hffits1 _].
  destruct (path_fits_join _ _ _ Hfree Hne Hfits2) as [Hffits2 _].
  exists fs1, fs2. split; [done|]. split; [by rewrite <- Hway1|].
  split; [by apply path_isdir_folder|]. split; [by apply read_file_file|].
  split; [done|]. split; [by apply path_isdir_folder|]. by apply read_file_file.
Qed.

Lemma app_fs_wf : fs_wf app_fs.
Proof. unfold fs_wf, app_fs; simpl. by apply map_Forall_singleton. Qed.

Lemma export_verdict_creates_then_overwrites_witness :
  ∃ fs1 fs2,
    export_verdict_to_txt no_context "out" "x.txt" "hello" app_fs
    = (Return status_success, fs1)
    ∧ (∀ l, l ∈ way app_fs "out" → node_at fs1 l = Some Dir)
    ∧ os.path_isdir fs1 "out" = true
    ∧ read_file fs1 (posixpath.join "out" "x.txt") = Return "hello"
    ∧ export_verdict_to_txt no_context "out" "x.txt" "world" fs1
      = (Return status_success, fs2)
    ∧ os.path_isdir fs2 "out" = true
    ∧ read_file fs2 (posixpath.join "out" "x.txt") = Return "world".
Proof.
  apply (export_verdict_creates_then_overwrites no_context app_fs "out" "x.txt" "hello" "world").
  - apply app_fs_wf.
  - intros call. reflexivity.
  - discriminate.
  - reflexivity.
  - reflexivity.
  - reflexivity.
  - reflexivity.
  - reflexivity.
  - reflexivity.
Defined.

(** The scenario of the specification, run: [out] is made, [out/x.txt]
    holds [hello], and after the second call [world]. *)
Example export_hello_then_world :
  let fs1 := snd (export_verdict_to_txt no_context "out" "x.txt" "hello" app_fs) in
  let fs2 := snd (export_verdict_to_txt no_context "out" "x.txt" "world" fs1) in
  os.path_exists app_fs "out" = false
  ∧ os.path_isdir fs1 "out" = true
  ∧ read_file fs1 "out/x.txt" = Return "hello"
  ∧ read_file fs2 "out/x.txt" = Return "world".
Proof. vm_compute. done. Qed.

(** C4 as stated fails: the folder [reports/out] does not exist, the file
    name holds no separator, and the call raises, because [reports] is a
    regular file; nothing is created. *)
Lemma export_verdict_file_on_the_way :
  os.path_exists reports_file_fs "reports/out" = false
  ∧ posixpath.sep_free "x.txt" = true
  ∧ export_verdict_to_txt no_context "reports/out" "x.txt" "hello" reports_file_fs
    = (Raise NotADirectoryError, reports_file_fs).
Proof. vm_compute. done. Qed.

(** Each condition of the amended statement is needed: the call raises with
    an empty file name, with the file name [..], and when the slot of the
    file is a directory made on the way to the folder. *)
Example export_verdict_needs_conditions :
  fst (export_verdict_to_txt no_context "out" "" "hello" app_fs) = Raise IsADirectoryError
  ∧ fst (export_verdict_to_txt no_context "out" ".." "hello" app_fs) = Raise IsADirectoryError
  ∧ fst (export_verdict_to_txt no_context "out/x/.." "x" "hello" app_fs)
    = Raise IsADirectoryError.
Proof. vm_compute. done. Qed.

(** So is each condition on the host and on the encoding: the call raises
    [ValueError] on a file name with a null byte, [OSError] on a name of
    256 bytes, [RecursionError] on a folder of three names when the
    interpreter has room for one nested call, [PermissionError] where the
    process may not make a directory; on a full disk, and with a text that
    UTF-8 does not encode, it raises out of [write], after [open] has
    emptied the report that was there. *)
Example export_verdict_needs_host :
  fst (export_verdict_to_txt no_context "out" nul_name "hello" app_fs) = Raise ValueError
  ∧ fst (export_verdict_to_txt no_context "out" long_name "hello" app_fs)
    = Raise (OSError ENAMETOOLONG)
  ∧ export_verdict_to_txt no_context "a/b/c" "x.txt" "hello" (on_host shallow_host app_fs)
    = (Raise RecursionError, on_host shallow_host app_fs)
  ∧ export_verdict_to_txt no_context "out" "x.txt" "hello" (on_host read_only_host app_fs)
    = (Raise PermissionError, on_host read_only_host app_fs)
  ∧ fst (export_verdict_to_txt no_context "historical_court_reports" "Napoleon.txt"
           "verdict" (on_host full_disk_host report_fs))
    = Raise (OSError ENOSPC)
  ∧ read_file (snd (export_verdict_to_txt no_context "historical_court_reports"
                      "Napoleon.txt" "verdict" (on_host full_disk_host report_fs)))
      "historical_court_reports/Napoleon.txt"
    = Return ""
  ∧ read_file report_fs "historical_court_reports/Napoleon.txt" = Return "draft"
  ∧ fst (export_verdict_to_txt no_context "historical_court_reports" "Napoleon.txt"
           surrogate_text report_fs)
    = Raise UnicodeEncodeError
  ∧ read_file (snd (export_verdict_to_txt no_context "historical_court_reports"
                      "Napoleon.txt" surrogate_text report_fs))
      "historical_court_reports/Napoleon.txt"
    = Return "".
Proof. vm_compute. done. Qed.

(** The call the scribe is asked to make. *)
Example export_verdict_report :
  let fs1 := snd (export_verdict_to_txt no_context "historical_court_reports"
                    "Napoleon.txt" "1. Introduction" app_fs) in
  node_at fs1 ["historical_court_reports"; "app"] = Some Dir
  ∧ read_file fs1 "historical_court_reports/Napoleon.txt" = Return "1. Introduction".
Proof. vm_compute. done. Qed.

(** C5, amended: when the write fails, that is when [os.makedirs] raises, or
    returns and [open] raises, or both return and [write] raises, the tool
    raises the same exception to its caller with the file system as the
    failing call left it; it returns no status then, and the only status it
    ever returns is success. *)
Theorem export_verdict_failure_raises
    (ctx : ToolContext) (fs fs' : FileSystem) (f n t : string) (e : exception) :
  os.makedirs (posixpath.dirname (posixpath.join f n)) true fs = (Raise e, fs')
  ∨ (∃ fs1, os.makedirs (posixpath.dirname (posixpath.join f n)) true fs = (Return (), fs1)
            ∧ open_w (posixpath.join f n) fs1 = (Raise e, fs'))
  ∨ (∃ fs1 file fs2,
       os.makedirs (posixpath.dirname (posixpath.join f n)) true fs = (Return (), fs1)
       ∧ open_w (posixpath.join f n) fs1 = (Return file, fs2)
       ∧ file_write file t fs2 = (Raise e, fs')) →
  export_verdict_to_txt ctx f n t fs = (Raise e, fs')
  ∧ (∀ status, fst (export_verdict_to_txt ctx f n t fs) ≠ Return status)
  ∧ (∀ ctx0 fs0 f0 n0 t0 status,
       fst (export_verdict_to_txt ctx0 f0 n0 t0 fs0) = Return status →
       status = status_success).
Proof.
  intros H.
  assert (export_verdict_to_txt ctx f n t fs = (Raise e, fs')) as Hraise.
  { rewrite export_cases.
    destruct H as [->|[(fs1 & -> & ->)|(fs1 & file & fs2 & -> & -> & ->)]]; done. }
  split; [done|]. split; [by rewrite Hraise|].
  intros ctx0 fs0 f0 n0 t0 status. rewrite export_cases.
  destruct (os.makedirs _ true fs0) as [[[]|?] ?]; [|done].
  destruct (open_w _ _) as [[?|?] ?]; [|done].
  destruct (file_write _ _ _) as [[[]|?] ?]; [|done]. by intros [= <-].
Qed.

Lemma export_verdict_failure_raises_witness :
  export_verdict_to_txt no_context "out" "drafts" "hello" drafts_dir_fs
  = (Raise IsADirectoryError, drafts_dir_fs).
Proof.
  apply (export_verdict_failure_raises no_context drafts_dir_fs drafts_dir_fs
           "out" "drafts" "hello" IsADirectoryError).
  right. left. exists drafts_dir_fs. split; vm_compute; reflexivity.
Defined.

(** C5 as stated fails: the write fails, for [out/drafts] is a directory,
    and the tool returns no status at all, failed or other: it raises. *)
Lemma export_verdict_onto_directory_raises :
  fst (export_verdict_to_txt no_context "out" "drafts" "hello" drafts_dir_fs)
  = Raise IsADirectoryError
  ∧ ¬ ∃ status, fst (export_verdict_to_txt no_context "out" "drafts" "hello" drafts_dir_fs)
                = Return status.
Proof.
  assert (fst (export_verdict_to_txt no_context "out" "drafts" "hello" drafts_dir_fs)
          = Raise IsADirectoryError) as H by (vm_compute; reflexivity).
  split; [done|]. intros [status Hs]. rewrite H in Hs. discriminate.
Qed.

(** C10, amended: with the empty folder and a file name without separator
    the tool raises, out of the directory creation, and leaves the file
    system as it was.  With any other folder the directory it asks
    [os.makedirs] for is the folder, written without the separators at its
    end, which names the location the folder names; every directory that
    the call makes, whether it returns or raises, lies on the way to the
    folder; and when the call returns, the folder is a directory. *)
Theorem export_verdict_directory (ctx : ToolContext) (fs : FileSystem) (folder n t : string) :
  posixpath.sep_free n = true →
  export_verdict_to_txt ctx "" n t fs = (Raise FileNotFoundError, fs)
  ∧ os.makedirs (posixpath.dirname (posixpath.join "" n)) true fs = (Raise FileNotFoundError, fs)
  ∧ (folder ≠ "" →
     posixpath.dirname (posixpath.join folder n) = posixpath.strip folder
     ∧ way fs (posixpath.dirname (posixpath.join folder n)) = way fs folder
     ∧ target fs (posixpath.dirname (posixpath.join folder n)) = target fs folder
     ∧ (plain folder = true →
        ∀ l, node_at fs l = None →
             node_at (snd (export_verdict_to_txt ctx folder n t fs)) l = Some Dir →
             l ∈ way fs folder)
     ∧ (fs_wf fs → plain (posixpath.join folder n) = true →
        ∀ status, fst (export_verdict_to_txt ctx folder n t fs) = Return status →
          resolve (snd (export_verdict_to_txt ctx folder n t fs)) folder
          = Return (target fs folder)
          ∧ node_at (snd (export_verdict_to_txt ctx folder n t fs)) (target fs folder)
            = Some Dir)).
Proof.
  intros Hn. split; [by apply export_empty_folder|]. split.
  { by rewrite dirname_join_empty, makedirs_empty. }
  intros Hf. rewrite dirname_join by done. split; [done|]. split; [apply way_strip|].
  split; [unfold target, start; by rewrite components_strip, startswith_sep_strip|].
  split.
  - intros Hp l Hold Hnew. by apply (export_adds ctx fs folder n t).
  - intros Hwf Hp status Hret.
    destruct (export_returns_dir ctx fs folder n t status Hwf Hn Hf Hp Hret)
      as (_ & Hres & Hdirs & _).
    split; [done|]. apply Hdirs, target_way.
Qed.

Lemma export_verdict_directory_witness :
  export_verdict_to_txt no_context "" "Napoleon.txt" "report" app_fs
  = (Raise FileNotFoundError, app_fs)
  ∧ posixpath.dirname (posixpath.join "historical_court_reports/" "Napoleon.txt")
    = "historical_court_reports"
  ∧ node_at (snd (export_verdict_to_txt no_context "historical_court_reports/"
                    "Napoleon.txt" "report" app_fs))
      ["historical_court_reports"; "app"]
    = Some Dir.
Proof.
  destruct (export_verdict_directory no_context app_fs "historical_court_reports/"
              "Napoleon.txt" "report" eq_refl) as (H1 & _ & H2).
  split; [exact H1|]. destruct H2 as (H2 & _ & _ & _ & H3); [discriminate|].
  split; [exact H2|].
  destruct (H3 app_fs_wf eq_refl status_success) as [_ H4]; [vm_compute; reflexivity|].
  exact H4.
Defined.

(** C10 as stated fails: with the folder [out/x/..], which names [out], the
    call returns and has made the directory [out/x] too, which is not the
    folder. *)
Lemma export_verdict_makes_more_than_folder :
  posixpath.sep_free "r.txt" = true
  ∧ fst (export_verdict_to_txt no_context "out/x/.." "r.txt" "report" app_fs)
    = Return status_success
  ∧ target app_fs "out/x/.." = ["out"; "app"]
  ∧ node_at app_fs ["x"; "out"; "app"] = None
  ∧ node_at (snd (export_verdict_to_txt no_context "out/x/.." "r.txt" "report" app_fs))
      ["x"; "out"; "app"]
    = Some Dir
  ∧ read_file (snd (export_verdict_to_txt no_context "out/x/.." "r.txt" "report" app_fs))
      "out/r.txt"
    = Return "report".
Proof. vm_compute. done. Qed.

(** ** The session state *)

(** C1, amended: when the key is absent from the state or bound to a list,
    appending to the key and reading it back gives the sequence stored
    before (empty when the key was absent) followed by the new value, and no
    later run of tool calls removes an entry from it. *)
Theorem update_session_state_get_appended (ctx : ToolContext) (k v : string) (prev : list pyval) :
  (state ctx !! k = None ∧ prev = []) ∨ state ctx !! k = Some (PyList prev) →
  fst (update_session_state ctx k v) = Return status_success
  ∧ state (snd (update_session_state ctx k v)) !! k = Some (PyList (prev ++ [PyStr v]))
  ∧ ∀ calls, ∃ l,
      state (run_updates (snd (update_session_state ctx k v)) calls) !! k = Some (PyList l)
      ∧ (prev ++ [PyStr v]) `prefix_of` l.
Proof.
  intros H.
  assert (stored_sequence ctx k = Some prev) as Hs.
  { destruct H as [[H ->]|H]; [by apply stored_sequence_absent|by apply stored_sequence_list]. }
  rewrite (update_session_state_ok _ _ _ _ Hs); simpl.
  split; [done|]. split; [by rewrite lookup_insert_eq|].
  intros calls.
  destruct (run_updates_prefix calls (state_set ctx k (PyList (prev ++ [PyStr v]))) k
              (prev ++ [PyStr v]) (stored_sequence_set_eq _ _ _)) as (l & Hl & Hpre).
  exists l. split; [|done].
  apply stored_sequence_inv in Hl as [[Hn ->]|Hl]; [|done].
  apply prefix_nil_inv in Hpre. by destruct prev.
Qed.

Lemma update_session_state_get_appended_witness :
  let ctx := {| state := {[ "pos_data" := PyList [PyStr "founded a code of law"] ]} |} in
  state (snd (update_session_state ctx "pos_data" "reformed schools")) !! "pos_data"
  = Some (PyList [PyStr "founded a code of law"; PyStr "reformed schools"]).
Proof.
  intros ctx.
  apply (update_session_state_get_appended ctx "pos_data" "reformed schools"
           [PyStr "founded a code of law"]).
  right. reflexivity.
Defined.

(** C1 as stated fails: it is claimed of every session state, and on a
    state that binds the key to a string the call raises; reading the key
    afterwards gives the string that was there, and no sequence that ends
    in the value. *)
Lemma update_session_state_scalar_not_appended :
  fst (update_session_state scalar_topic_context "SUBJECT_TOPIC" "Caesar") = Raise TypeError
  ∧ state (snd (update_session_state scalar_topic_context "SUBJECT_TOPIC" "Caesar"))
      !! "SUBJECT_TOPIC"
    = Some (PyStr "Napoleon")
  ∧ ∀ prev,
      state (snd (update_session_state scalar_topic_context "SUBJECT_TOPIC" "Caesar"))
        !! "SUBJECT_TOPIC"
      ≠ Some (PyList (prev ++ [PyStr "Caesar"])).
Proof.
  assert (state (snd (update_session_state scalar_topic_context "SUBJECT_TOPIC" "Caesar"))
            !! "SUBJECT_TOPIC"
          = Some (PyStr "Napoleon")) as E by reflexivity.
  split; [reflexivity|]. split; [exact E|]. intros prev. rewrite E. discriminate.
Qed.

(** C7, amended: when the key is absent from the state or bound to a list,
    the call returns the success status, and the state it leaves is the
    state it found with the key bound to the list extended by the value;
    nothing else of the context changes. *)
Theorem update_session_state_success (ctx : ToolContext) (k v : string) (prev : list pyval) :
  (state ctx !! k = None ∧ prev = []) ∨ state ctx !! k = Some (PyList prev) →
  update_session_state ctx k v
  = (Return status_success,
     {| state := <[k := PyList (prev ++ [PyStr v])]> (state ctx) |}).
Proof.
  intros H. apply update_session_state_ok.
  destruct H as [[H ->]|H]; [by apply stored_sequence_absent|by apply stored_sequence_list].
Qed.

Lemma update_session_state_success_witness :
  update_session_state no_context "SUBJECT_TOPIC" "Napoleon"
  = (Return status_success,
     {| state := <["SUBJECT_TOPIC" := PyList [PyStr "Napoleon"]]> ∅ |}).
Proof.
  apply (update_session_state_success no_context "SUBJECT_TOPIC" "Napoleon" []).
  left. split; reflexivity.
Defined.

(** C7 as stated fails: on a state that binds the key to a string the call
    raises [TypeError], returns no status and leaves the state as it was. *)
Lemma update_session_state_scalar_raises :
  update_session_state scalar_topic_context "SUBJECT_TOPIC" "Caesar"
  = (Raise TypeError, scalar_topic_context)
  ∧ fst (update_session_state scalar_topic_context "SUBJECT_TOPIC" "Caesar")
    ≠ Return status_success.
Proof. split; [reflexivity|discriminate]. Qed.

(** C9: a call changes no binding but that of its key, whether it returns
    or raises. *)
Theorem update_session_state_frame (ctx : ToolContext) (k v k' : string) :
  k' ≠ k →
  state (snd (update_session_state ctx k v)) !! k' = state ctx !! k'.
Proof.
  intros Hne. unfold update_session_state.
  destruct (py_add _ _); simpl; [|done]. by rewrite lookup_insert_ne.
Qed.

Lemma update_session_state_frame_witness :
  state (snd (update_session_state scalar_topic_context "pos_data" "a code of law"))
    !! "SUBJECT_TOPIC"
  = Some (PyStr "Napoleon").
Proof.
  rewrite (update_session_state_frame scalar_topic_context "pos_data" "a code of law"
             "SUBJECT_TOPIC"); [reflexivity|discriminate].
Defined.

(** ** The loop *)

(** C2: whatever the agents do, a run of [trial_review_loop] begins at most
    three iterations, runs each of its three agents at most three times, and
    ends without passing a signal on; when the judge never makes the exit
    call, the run begins exactly three iterations and ends. *)
Theorem trial_review_loop_bounded
    (capability : string → nat → World → list tool_call)
    (environ : gmap string string) (now : nat) (w : World) :
  let r := exec capability (trial_review_loop environ) now w in
  count (is_iteration "trial_review_loop") (trace r) ≤ 3
  ∧ count (is_step "admirer") (trace r) ≤ 3
  ∧ count (is_step "critic") (trace r) ≤ 3
  ∧ count (is_step "judge") (trace r) ≤ 3
  ∧ signal r = false
  ∧ ((∀ now w, CallExitLoop ∉ capability "judge" now w) →
     count (is_iteration "trial_review_loop") (trace r) = 3).
Proof.
  cbv zeta. unfold trial_review_loop. rewrite exec_loop.
  assert (∀ p, (∀ a c st, p (EvCall a c st) = false) → ∀ now w,
            count p (trace (seq_steps (map (exec capability)
                       [investigation_stage environ; the_judge environ]) now w))
            ≤ (if p (EvStep "admirer") then 1 else 0) + (if p (EvStep "critic") then 1 else 0)
              + (if p (EvStep "judge") then 1 else 0)) as Hround.
  { intros p Hp now' w'. apply (review_round_count capability p environ now' w' Hp). }
  assert (∀ now w, count (is_iteration "trial_review_loop")
            (trace (seq_steps (map (exec capability)
                      [investigation_stage environ; the_judge environ]) now w)) = 0) as Hnone.
  { intros now' w'.
    specialize (Hround (is_iteration "trial_review_loop") (λ _ _ _, eq_refl) now' w').
    cbn [is_iteration] in Hround. lia. }
  split; [|split; [|split; [|split; [|split]]]].
  - by apply loop_steps_iterations.
  - etrans; [apply (loop_steps_count_le (is_step "admirer") 1); [done|]|lia].
    intros now' w'. by apply (Hround (is_step "admirer")).
  - etrans; [apply (loop_steps_count_le (is_step "critic") 1); [done|]|lia].
    intros now' w'. by apply (Hround (is_step "critic")).
  - etrans; [apply (loop_steps_count_le (is_step "judge") 1); [done|]|lia].
    intros now' w'. by apply (Hround (is_step "judge")).
  - apply loop_steps_signal.
  - intros Hno. apply loop_steps_maxed_out; [done|].
    intros now' w'. by apply review_round_quiet.
Qed.

Lemma trial_review_loop_bounded_witness :
  count (is_iteration "trial_review_loop")
    (trace (exec restless_capability (trial_review_loop model_environ) 0 app_world)) = 3.
Proof.
  apply (trial_review_loop_bounded restless_capability model_environ 0 app_world).
  intros now w. unfold restless_capability. simpl. apply not_elem_of_nil.
Defined.

(** With agents that never make the exit call the loop runs its three
    iterations and stops. *)
Example restless_loop_stops :
  let r := exec restless_capability (trial_review_loop model_environ) 0 app_world in
  count (is_iteration "trial_review_loop") (trace r) = 3
  ∧ count (is_step "judge") (trace r) = 3
  ∧ clock r = 9.
Proof. vm_compute. done. Qed.

(** C3: a loop in state [Running index] with an iteration left, whose
    children [before] run without a signal and whose child [c] then raises
    the signal, ends in that iteration: its run is the run of [before]
    followed by the run of [c], no child of [after] runs, no further
    iteration begins, and the signal is not passed on.  In the loop of the
    module the judge raises the signal when it is asked to call the exit
    tool, and that call is the last event of the loop. *)
Theorem exit_loop_ends_loop (capability : string → nat → World → list tool_call) :
  (∀ (name : string) (before : list agent) (c : agent) (after : list agent)
     (k index now : nat) (w : World),
     let r1 := seq_steps (map (exec capability) before) now w in
     let r2 := exec capability c (clock r1) (world r1) in
     signal r1 = false → signal r2 = true →
     loop_steps name (seq_steps (map (exec capability) (before ++ c :: after)))
       (S k) index now w
     = {| world := world r2; clock := clock r2;
          trace := EvIteration name index :: trace r1 ++ trace r2;
          signal := false; transfer := None |})
  ∧ (∀ (environ : gmap string string) (k index now : nat) (w : World),
       let r1 := exec capability (investigation_stage environ) now w in
       let r2 := exec capability (the_judge environ) (clock r1) (world r1) in
       CallExitLoop ∈ capability "judge" (clock r1) (world r1) →
       loop_steps "trial_review_loop" (review_round capability environ) (S k) index now w
       = {| world := world r2; clock := clock r2;
            trace := EvIteration "trial_review_loop" index :: trace r1 ++ trace r2;
            signal := false; transfer := None |}
       ∧ last (trace r2) = Some (EvCall "judge" CallExitLoop Signalled)).
Proof.
  split.
  - intros name before c after k index now w r1 r2 H1 H2. rewrite map_app. simpl.
    destruct (seq_steps_signal (map (exec capability) before) (exec capability c)
                (map (exec capability) after) now w H1 H2) as (Hw & Hc & Ht & Hs).
    by rewrite Hs, Hw, Hc, Ht.
  - intros environ k index now w r1 r2 Hexit. split; [|by apply judge_exit_last].
    apply (proj2 (judge_signal capability environ _ _)) in Hexit. fold r2 in Hexit.
    unfold review_round. cbn [loop_steps map]. rewrite !seq_steps_cons.
    rewrite investigation_stage_quiet. fold r1. cbn [world clock signal trace].
    fold r2. rewrite Hexit. cbn iota. by rewrite Hexit.
Qed.

Lemma exit_loop_ends_loop_witness :
  let w1 := world (review_round two_round_capability model_environ 0 app_world) in
  let r1 := exec two_round_capability (investigation_stage model_environ) 3 w1 in
  loop_steps "trial_review_loop" (review_round two_round_capability model_environ) 2 1 3 w1
  = {| world := world r1;
       clock := 6;
       trace := EvIteration "trial_review_loop" 1
                :: trace r1 ++ [EvStep "judge"; EvCall "judge" CallExitLoop Signalled];
       signal := false; transfer := None |}.
Proof.
  intros w1 r1.
  destruct (proj2 (exit_loop_ends_loop two_round_capability) model_environ 1 1 3 w1)
    as [H _].
  - vm_compute. apply list_elem_of_here.
  - rewrite H. vm_compute. reflexivity.
Defined.

(** The run of the module's loop with a judge that leaves in its second
    review: the exit call is the last event, and the third iteration never
    begins. *)
Example two_round_loop_trace :
  let r := exec two_round_capability (trial_review_loop model_environ) 0 app_world in
  count (is_iteration "trial_review_loop") (trace r) = 2
  ∧ last (trace r) = Some (EvCall "judge" CallExitLoop Signalled)
  ∧ signal r = false.
Proof. vm_compute. done. Qed.

(** ** The workflow graph and the model selection *)

(** C8, amended: the root of the assembled graph is the entry agent step
    [inquiry_clerk] itself, bound to the state-append tool, with one
    sub-agent, and that sub-agent is the sequence of the loop bounded by
    three over [Parallel(admirer, critic)] and [judge], followed by the
    scribe. *)
Theorem root_agent_graph (environ : gmap string string) :
  graph_of (root_agent environ) = Node (AgentStep "inquiry_clerk") [specified_main]
  ∧ graph_of (court_system_workflow environ) = specified_main
  ∧ (∃ model description instruction,
       root_agent environ
       = Agent "inquiry_clerk" model description instruction [UpdateSessionState]
           [court_system_workflow environ])
  ∧ trial_review_loop environ
    = LoopAgent "trial_review_loop" [investigation_stage environ; the_judge environ] 3
  ∧ investigation_stage environ
    = ParallelAgent "investigation_stage" [the_admirer environ; the_critic environ].
Proof. repeat split. by eexists _, _, _. Qed.

(** C8 as stated fails: the root is an agent step, not a sequence. *)
Lemma root_agent_not_sequential :
  graph_of (root_agent model_environ) ≠ specified_root.
Proof. discriminate. Qed.

(** The models of the agent steps of a tree, in order. *)
Lemma model_name_absent (environ : gmap string string) :
  environ !! "MODEL" = None →
  model_name environ = None
  ∧ agent_model (the_admirer environ) = Some None
  ∧ agent_model (the_critic environ) = Some None
  ∧ agent_model (the_judge environ) = Some None
  ∧ agent_model (verdict_scribe environ) = Some None
  ∧ agent_model (inquiry_clerk environ) = Some None.
Proof.
  intros H. assert (model_name environ = None) as Hm by exact H.
  unfold the_admirer, the_critic, the_judge, verdict_scribe, inquiry_clerk, agent_model.
  rewrite Hm. by repeat split.
Qed.

Lemma model_name_present (environ : gmap string string) (m : string) :
  environ !! "MODEL" = Some m → model_name environ = Some m.
Proof. done. Qed.

(** ** Further properties of [update_session_state] *)

Section SessionStateMore.

Implicit Types (ctx : ToolContext) (k v : string) (prev : list pyval).

Lemma stored_sequence_other ctx k k' v :
  k' ≠ k → stored_sequence (snd (update_session_state ctx k' v)) k = stored_sequence ctx k.
Proof.
  intros Hne. destruct (stored_sequence ctx k') as [p'|] eqn:Hk'.
  - rewrite (update_session_state_ok _ _ _ _ Hk'); simpl.
    by apply stored_sequence_set_ne.
  - by rewrite (update_session_state_raises _ _ _ Hk').
Qed.

Lemma state_set_commute ctx k1 k2 x1 x2 :
  k1 ≠ k2 →
  state_set (state_set ctx k1 x1) k2 x2 = state_set (state_set ctx k2 x2) k1 x1.
Proof. intros Hne. unfold state_set; simpl. f_equal. by apply insert_insert_ne. Qed.

Lemma stored_sequence_None ctx k :
  stored_sequence ctx k = None ↔ ∃ x, state ctx !! k = Some x ∧ ∀ l, x ≠ PyList l.
Proof.
  unfold stored_sequence, state_get. destruct (state ctx !! k) as [[| |l]|]; simpl.
  - split; [intros _; by exists PyNone|done].
  - split; [intros _; by eexists (PyStr _)|done].
  - split; [done|]. intros (x & [= <-] & Hx). by destruct (Hx l).
  - split; [done|]. by intros (x & ? & _).
Qed.

End SessionStateMore.

(** Calls on different keys commute: the two orders leave the same state
    and give each call the same outcome. *)
Theorem update_session_state_commute (ctx : ToolContext) (k1 v1 k2 v2 : string) :
  k1 ≠ k2 →
  snd (update_session_state (snd (update_session_state ctx k1 v1)) k2 v2)
  = snd (update_session_state (snd (update_session_state ctx k2 v2)) k1 v1)
  ∧ fst (update_session_state (snd (update_session_state ctx k2 v2)) k1 v1)
    = fst (update_session_state ctx k1 v1)
  ∧ fst (update_session_state (snd (update_session_state ctx k1 v1)) k2 v2)
    = fst (update_session_state ctx k2 v2).
Proof.
  intros Hne.
  pose proof (stored_sequence_other ctx k1 k2 v2 (not_eq_sym Hne)) as H1.
  pose proof (stored_sequence_other ctx k2 k1 v1 Hne) as H2.
  destruct (stored_sequence ctx k1) as [p1|] eqn:Hk1;
    destruct (stored_sequence ctx k2) as [p2|] eqn:Hk2.
  - rewrite (update_session_state_ok _ _ _ _ H1), (update_session_state_ok _ _ _ _ H2).
    rewrite (update_session_state_ok _ _ _ _ Hk1), (update_session_state_ok _ _ _ _ Hk2).
    simpl. split; [|done]. by apply state_set_commute.
  - rewrite (update_session_state_ok _ _ _ _ H1), (update_session_state_raises _ _ _ H2).
    by rewrite (update_session_state_ok _ _ _ _ Hk1), (update_session_state_raises _ _ _ Hk2).
  - rewrite (update_session_state_raises _ _ _ H1), (update_session_state_ok _ _ _ _ H2).
    by rewrite (update_session_state_raises _ _ _ Hk1), (update_session_state_ok _ _ _ _ Hk2).
  - rewrite (update_session_state_raises _ _ _ H1), (update_session_state_raises _ _ _ H2).
    by rewrite (update_session_state_raises _ _ _ Hk1), (update_session_state_raises _ _ _ Hk2).
Qed.

Lemma update_session_state_commute_witness :
  snd (update_session_state (snd (update_session_state no_context "pos_data" "a")) "neg_data" "b")
  = snd (update_session_state (snd (update_session_state no_context "neg_data" "b")) "pos_data" "a").
Proof.
  apply (update_session_state_commute no_context "pos_data" "a" "neg_data" "b").
  discriminate.
Defined.

(** After any run of calls, a key that held a list (or was absent, which
    reads as the empty list) holds that list followed by the values the run
    appended to this key, in call order; calls on other keys, raising or
    not, do not show in it. *)
Theorem run_updates_values (ctx : ToolContext) (k : string) (prev : list pyval)
    (calls : list (string * string)) :
  stored_sequence ctx k = Some prev →
  stored_sequence (run_updates ctx calls) k
  = Some (prev ++ (PyStr <$> values_for k calls)).
Proof.
  revert ctx prev. induction calls as [|[k' v] rest IH]; intros ctx prev Hs.
  - simpl. by rewrite app_nil_r.
  - simpl. unfold values_for. destruct (decide (k' = k)) as [->|Hne].
    + rewrite filter_cons_True by done. simpl.
      rewrite (update_session_state_ok _ _ _ _ Hs); simpl.
      rewrite (IH _ (prev ++ [PyStr v]) (stored_sequence_set_eq _ _ _)).
      by rewrite <- app_assoc.
    + rewrite filter_cons_False by done. apply IH. by rewrite stored_sequence_other.
Qed.

Lemma run_updates_values_witness :
  stored_sequence
    (run_updates no_context
       [("pos_data", "a"); ("neg_data", "x"); ("pos_data", "b"); ("neg_data", "y")])
    "pos_data"
  = Some [PyStr "a"; PyStr "b"].
Proof.
  apply (run_updates_values no_context "pos_data" []
           [("pos_data", "a"); ("neg_data", "x"); ("pos_data", "b"); ("neg_data", "y")]).
  reflexivity.
Defined.

(** A state in which every key is bound to a list of strings stays so under
    a call, and on such a state every call returns the success status: from
    the empty state on, no run of calls ever raises. *)
Theorem update_session_state_lists_of_strings (ctx : ToolContext) (k v : string) :
  lists_of_strings ctx →
  fst (update_session_state ctx k v) = Return status_success
  ∧ lists_of_strings (snd (update_session_state ctx k v))
  ∧ ∀ calls, Forall (λ o, o = Return status_success) (run_outcomes ctx calls)
             ∧ lists_of_strings (run_updates ctx calls).
Proof.
  assert (∀ ctx k v, lists_of_strings ctx →
            fst (update_session_state ctx k v) = Return status_success
            ∧ lists_of_strings (snd (update_session_state ctx k v))) as Hstep.
  { clear. intros ctx k v Hinv.
    assert (∃ prev, stored_sequence ctx k = Some prev ∧ forallb is_str prev = true)
      as (prev & Hs & Hprev).
    { unfold stored_sequence, state_get. destruct (state ctx !! k) as [x|] eqn:Hk.
      - specialize (Hinv k x Hk). simpl in Hinv. destruct x as [| |l]; try done.
        by exists l.
      - by exists []. }
    rewrite (update_session_state_ok _ _ _ _ Hs). simpl. split; [done|].
    unfold lists_of_strings, state_set; simpl. apply map_Forall_insert_2; [|done].
    simpl. rewrite forallb_app, Hprev. done. }
  intros Hinv. destruct (Hstep ctx k v Hinv) as [H1 H2]. split; [done|]. split; [done|].
  intros calls. clear H1 H2. revert ctx Hinv.
  induction calls as [|[k' v'] rest IH]; intros ctx Hinv; simpl; [by split|].
  destruct (Hstep ctx k' v' Hinv) as [H1 H2]. destruct (IH _ H2) as [IH1 IH2].
  split; [by constructor|done].
Qed.

Lemma update_session_state_lists_of_strings_witness :
  Forall (λ o, o = Return status_success)
    (run_outcomes no_context [("SUBJECT_TOPIC", "Napoleon"); ("pos_data", "a"); ("pos_data", "b")]).
Proof.
  apply (update_session_state_lists_of_strings no_context "pos_data" "a").
  apply map_Forall_empty.
Defined.

(** On a key that is bound to anything but a list the call raises
    [TypeError] and leaves the context as it was; so does every later call
    on that key: the tool never repairs such a binding. *)
Theorem update_session_state_not_a_list (ctx : ToolContext) (k v : string) (x : pyval) :
  state ctx !! k = Some x → (∀ l, x ≠ PyList l) →
  update_session_state ctx k v = (Raise TypeError, ctx)
  ∧ ∀ vs, run_updates ctx ((λ v, (k, v)) <$> vs) = ctx
          ∧ Forall (λ o, o = Raise TypeError) (run_outcomes ctx ((λ v, (k, v)) <$> vs)).
Proof.
  intros Hk Hx.
  assert (∀ v, update_session_state ctx k v = (Raise TypeError, ctx)) as Hraise.
  { intros v'. apply update_session_state_raises, stored_sequence_None. by exists x. }
  split; [done|]. induction vs as [|v' vs [IH1 IH2]]; simpl; [by split|].
  rewrite Hraise. simpl. split; [done|]. by constructor.
Qed.

Lemma update_session_state_not_a_list_witness :
  run_updates scalar_topic_context [("SUBJECT_TOPIC", "Caesar"); ("SUBJECT_TOPIC", "Nero")]
  = scalar_topic_context.
Proof.
  destruct (update_session_state_not_a_list scalar_topic_context "SUBJECT_TOPIC" "Caesar"
              (PyStr "Napoleon")) as [_ H]; [reflexivity|discriminate|].
  apply (H ["Caesar"; "Nero"]).
Defined.

(** ** Further properties of the paths and of [export_verdict_to_txt] *)

(** The folder and the file name are what [split] finds in their [join]:
    the file name as it is, the folder without the separators at its end. *)
Theorem split_join (f n : string) :
  posixpath.sep_free n = true →
  posixpath.split (posixpath.join f n) = (posixpath.strip f, n)
  ∧ posixpath.components (posixpath.strip f) = posixpath.components f
  ∧ (posixpath.endswith_sep f = false → posixpath.split (posixpath.join f n) = (f, n)).
Proof.
  intros Hn. split; [by apply split_join_parts|]. split; [apply components_strip|].
  intros He. rewrite split_join_parts by done. f_equal. unfold posixpath.strip.
  destruct (posixpath.all_sep f) eqn:Ha; [done|]. by apply rstrip_sep_id.
Qed.

Lemma split_join_witness :
  posixpath.split (posixpath.join "historical_court_reports" "Napoleon.txt")
  = ("historical_court_reports", "Napoleon.txt").
Proof.
  apply (split_join "historical_court_reports" "Napoleon.txt"); reflexivity.
Defined.




(** When the tool returns, the status is success and the path holds exactly
    the text, whatever the folder and the file name were. *)
Theorem export_verdict_returns_written
    (ctx : ToolContext) (fs : FileSystem) (f n t : string) (status : gmap string string) :
  fst (export_verdict_to_txt ctx f n t fs) = Return status →
  status = status_success
  ∧ read_file (snd (export_verdict_to_txt ctx f n t fs)) (posixpath.join f n) = Return t.
Proof.
  intros Hret.
  destruct (export_Return ctx f n t fs status Hret) as (l & Hres & Hnode & Hne & Hend & ->).
  split; [by eapply export_status|].
  unfold read_file, node_of. rewrite (lookup_put _ _ _ _ l) by done.
  rewrite node_at_put by done. by rewrite decide_True, Hend.
Qed.

Lemma export_verdict_returns_written_witness :
  read_file
    (snd (export_verdict_to_txt no_context "historical_court_reports" "Napoleon.txt"
            "verdict" report_fs))
    (posixpath.join "historical_court_reports" "Napoleon.txt")
  = Return "verdict".
Proof.
  apply (export_verdict_returns_written no_context report_fs "historical_court_reports"
           "Napoleon.txt" "verdict" status_success).
  vm_compute. reflexivity.
Defined.

(** The tool keeps the file system well formed, whatever its arguments and
    whether it returns or raises. *)
Theorem export_verdict_keeps_wf (ctx : ToolContext) (fs : FileSystem) (f n t : string) :
  fs_wf fs → fs_wf (snd (export_verdict_to_txt ctx f n t fs)).
Proof.
  intros Hwf.
  pose proof (makedirs_wf (posixpath.dirname (posixpath.join f n)) true fs Hwf) as Hwf1.
  destruct (export_snd ctx f n t fs)
    as [->|(l & c & Hres & Hnode & Hne & _ & _ & _ & ->)]; [done|].
  by eapply put_file_wf.
Qed.

Lemma report_fs_wf : fs_wf report_fs.
Proof.
  unfold fs_wf, report_fs; simpl.
  repeat (apply map_Forall_insert_2; [reflexivity|]). apply map_Forall_empty.
Qed.

Lemma export_verdict_keeps_wf_witness :
  fs_wf (snd (export_verdict_to_txt no_context "historical_court_reports/2024"
                "Napoleon.txt" "verdict" report_fs)).
Proof.
  apply (export_verdict_keeps_wf no_context report_fs "historical_court_reports/2024"
           "Napoleon.txt" "verdict").
  apply report_fs_wf.
Defined.

(** A call that meets the conditions of a first export can be repeated: the
    second call returns success and leaves every location and the working
    directory as the first left them. *)
Theorem export_verdict_idempotent (ctx : ToolContext) (fs : FileSystem) (f n t : string) :
  fs_wf fs → permissive fs → f ≠ "" → file_name_ok n = true →
  within_limits fs f n = true → encodable t = true →
  clear_way fs f = true → slot_free fs f n = true →
  ∃ fs1 fs2,
    export_verdict_to_txt ctx f n t fs = (Return status_success, fs1)
    ∧ export_verdict_to_txt ctx f n t fs1 = (Return status_success, fs2)
    ∧ cwd fs2 = cwd fs1
    ∧ ∀ l, node_at fs2 l = node_at fs1 l.
Proof.
  intros Hwf Hperm Hf Hn Hlim Ht Hclear Hslot.
  destruct (export_ok ctx fs f n t Hwf Hperm Hf Hn Hlim Ht Hclear Hslot)
    as (fs1 & Hcall1 & Hwf1 & Hcwd1 & Hhost1 & Hdirs1 & Hfile1 & _).
  destruct (export_ok_again fs fs1 f n t Hcwd1 Hdirs1 Hfile1 Hslot)
    as (Hway1 & Htarget1 & Hclear1 & Hslot1).
  pose proof (permissive_host _ _ Hhost1 Hperm) as Hperm1.
  assert (within_limits fs1 f n = true) as Hlim1 by by rewrite (within_limits_host fs).
  destruct (export_ok ctx fs1 f n t Hwf1 Hperm1 Hf Hn Hlim1 Ht Hclear1 Hslot1)
    as (fs2 & Hcall2 & Hwf2 & Hcwd2 & Hhost2 & Hdirs2 & Hfile2 & Hframe2).
  exists fs1, fs2. split; [done|]. split; [done|]. split; [done|].
  intros l. rewrite Hway1 in Hdirs2, Hframe2. rewrite Htarget1 in Hfile2, Hframe2.
  destruct (decide (l ∈ way fs f)) as [Hl|Hl]; [by rewrite Hdirs1, Hdirs2|].
  destruct (decide (l = n :: target fs f)) as [->|Hne]; [by rewrite Hfile1, Hfile2|].
  by apply Hframe2.
Qed.

Lemma export_verdict_idempotent_witness :
  ∃ fs1 fs2,
    export_verdict_to_txt no_context "out" "x.txt" "hello" app_fs = (Return status_success, fs1)
    ∧ export_verdict_to_txt no_context "out" "x.txt" "hello" fs1 = (Return status_success, fs2)
    ∧ cwd fs2 = cwd fs1
    ∧ ∀ l, node_at fs2 l = node_at fs1 l.
Proof.
  apply (export_verdict_idempotent no_context app_fs "out" "x.txt" "hello").
  - unfold fs_wf, app_fs; simpl. by apply map_Forall_singleton.
  - intros call. reflexivity.
  - discriminate.
  - reflexivity.
  - reflexivity.
  - reflexivity.
  - reflexivity.
  - reflexivity.
Defined.
